(** * ZENTRO-AI: the conversation state of [src/App.tsx]

    A shallow embedding of the chat component's transcript store and send
    pipeline ([handleSend], [clearChat], the streaming loop and the citation
    merge), followed by the properties of the specification.

    Conventions of the embedding.
    - A JavaScript string is a [string]; its characters are read as code
      units below 256.  [===] on strings is [String.eqb].
    - A JavaScript number used as a clock reading or an array index is a [Z]
      (all the values involved are integers far below 2^53, where the
      arithmetic of doubles is exact).
    - [undefined] and [null] are [None].
    - Every React event handler is the closure of the latest render, so the
      [messages], [input], [selectedImage] and [isLoading] it reads are the
      current state; [setMessages (prev => ...)] is applied to the current
      state in program order.
    - [handleSend] is an [async] function: it runs synchronously up to
      [await chat.sendMessageStream(...)], and is resumed once per chunk of
      the stream.  Its suspended activation is a [Frame.t]; the environment
      (user, clock, SDK) drives the component through [Event]s. *)

From Stdlib Require Import String Ascii List ZArith Bool Lia.
From Stdlib Require Import DecimalString Sorted.
From Stdlib Require DecimalPos DecimalZ.
Import ListNotations.
Open Scope string_scope.
Open Scope Z_scope.
Open Scope list_scope.

(** ** JavaScript primitives used by the component *)

Module JS.

(** [!!s] for a string. *)
Definition truthy (s : string) : bool := negb (String.eqb s "").

(** [!!o] for [string | null | undefined]. *)
Definition truthy_opt (o : option string) : bool :=
  match o with
  | Some s => truthy s
  | None => false
  end.

(** [a || b] on strings. *)
Definition or_str (a b : string) : string := if truthy a then a else b.

(** [o || undefined] for [string | null]. *)
Definition or_undefined (o : option string) : option string :=
  if truthy_opt o then o else None.

(** [o || ''] for [string | undefined]. *)
Definition or_empty (o : option string) : string :=
  match o with
  | Some s => s
  | None => ""
  end.

(** WhiteSpace and LineTerminator code units below 256: TAB, LF, VT, FF,
    CR, SP and NBSP. *)
Definition isWhiteSpace (c : ascii) : bool :=
  let n := nat_of_ascii c in
  ((9 <=? n) && (n <=? 13) || (n =? 32) || (n =? 160))%nat.

Fixpoint trimStart (s : string) : string :=
  match s with
  | EmptyString => EmptyString
  | String c r => if isWhiteSpace c then trimStart r else s
  end.

Fixpoint trimEnd (s : string) : string :=
  match s with
  | EmptyString => EmptyString
  | String c r =>
      let r' := trimEnd r in
      if isWhiteSpace c && String.eqb r' "" then EmptyString else String c r'
  end.

(** [String.prototype.trim]. *)
Definition trim (s : string) : string := trimEnd (trimStart s).

(** [s.split(sep)] for a one-character separator: never the empty list. *)
Fixpoint split (sep : ascii) (s : string) : list string :=
  match s with
  | EmptyString => [EmptyString]
  | String c r =>
      if Ascii.eqb c sep then EmptyString :: split sep r
      else match split sep r with
           | h :: t => String c h :: t
           | [] => [String c EmptyString]
           end
  end.

(** [n.toString()] for an integer-valued number. *)
Definition toString (n : Z) : string := NilZero.string_of_int (Z.to_int n).

Section Arrays.
Context {A : Type}.

Fixpoint findIndex_from (p : A -> bool) (l : list A) (i : Z) : Z :=
  match l with
  | [] => -1
  | x :: r => if p x then i else findIndex_from p r (i + 1)
  end.

(** [a.findIndex(p)]: the first index whose element satisfies [p], or [-1]. *)
Definition findIndex (p : A -> bool) (a : list A) : Z :=
  findIndex_from p a 0.

Fixpoint filter_from (f : A -> Z -> list A -> bool) (a l : list A) (i : Z)
  : list A :=
  match l with
  | [] => []
  | v :: r =>
      if f v i a then v :: filter_from f a r (i + 1)
      else filter_from f a r (i + 1)
  end.

(** [a.filter((v, i, a) => f v i a)]: the callback receives the element, its
    index and the array being filtered. *)
Definition filter_idx (f : A -> Z -> list A -> bool) (a : list A) : list A :=
  filter_from f a a 0.

End Arrays.

End JS.

(** ** Data model *)

(** [{ uri: string; title: string }] *)
Record Source : Type := mkSource { uri : string; title : string }.

Inductive Role : Type := user | bot.

(** [interface Message]; [timestamp] is the [Date] as milliseconds. *)
Record Message : Type := mkMessage {
  id : string;
  role : Role;
  content : string;
  timestamp : Z;
  image : option string;
  sources : option (list Source)
}.

(** *** The part of the SDK's [GenerateContentResponse] the loop reads *)

Record GroundingChunk : Type := mkGroundingChunk { web : option Source }.

Record GroundingMetadata : Type := mkGroundingMetadata {
  groundingChunks : option (list GroundingChunk)
}.

Record Candidate : Type := mkCandidate {
  groundingMetadata : option GroundingMetadata
}.

Record Chunk : Type := mkChunk {
  text : option string;
  candidates : option (list Candidate)
}.

(** *** What is handed to the SDK *)

Module Api.

Inductive Part : Type :=
| inlineData (data : option string) (mimeType : string)
| textPart (t : string).

Record Content : Type := mkContent { role : string; parts : list Part }.

End Api.

(** ** Citation merge (the body of the streaming loop, lines 138-146) *)

(** [c.candidates?.[0]?.groundingMetadata?.groundingChunks] *)
Definition groundingChunksOf (c : Chunk) : option (list GroundingChunk) :=
  match candidates c with
  | Some (c0 :: _) =>
      match groundingMetadata c0 with
      | Some gm => groundingChunks gm
      | None => None
      end
  | _ => None
  end.

(** [groundingChunks.filter(chunk => chunk.web)
       .map(chunk => ({ uri: chunk.web!.uri, title: chunk.web!.title }))] *)
Definition newSources (gcs : list GroundingChunk) : list Source :=
  flat_map (fun gc => match web gc with
                      | Some w => [mkSource (uri w) (title w)]
                      | None => []
                      end) gcs.

(** [t.uri === v.uri] *)
Definition sameUri (v t : Source) : bool := String.eqb (uri t) (uri v).

(** [a.filter((v, i, a) => a.findIndex(t => t.uri === v.uri) === i)] *)
Definition uniqueByUri (a : list Source) : list Source :=
  JS.filter_idx (fun v i a => JS.findIndex (sameUri v) a =? i) a.

(** One iteration's update of the local [sources]. *)
Definition mergeSources (srcs : list Source) (c : Chunk) : list Source :=
  match groundingChunksOf c with
  | Some gcs => uniqueByUri (srcs ++ newSources gcs)
  | None => srcs
  end.

(** The value of [sources] after the loop has consumed [cs], from
    [let sources = []]. *)
Definition mergeAll (cs : list Chunk) : list Source :=
  fold_left mergeSources cs [].

(** The citation records a chunk reports, in the order it reports them. *)
Definition extracted (c : Chunk) : list Source :=
  match groundingChunksOf c with
  | Some gcs => newSources gcs
  | None => []
  end.

(** ** Component state *)

(** The four [useState] cells. *)
Record State : Type := mkState {
  messages : list Message;
  input : string;
  isLoading : bool;
  selectedImage : option string
}.

Definition setMessages (f : list Message -> list Message) (s : State) : State :=
  mkState (f (messages s)) (input s) (isLoading s) (selectedImage s).

Definition setInput (v : string) (s : State) : State :=
  mkState (messages s) v (isLoading s) (selectedImage s).

Definition setIsLoading (b : bool) (s : State) : State :=
  mkState (messages s) (input s) b (selectedImage s).

Definition setSelectedImage (o : option string) (s : State) : State :=
  mkState (messages s) (input s) (isLoading s) o.

Definition greeting : string :=
  "Hello! I'm your Gemini-powered assistant. How can I help you today?".

Definition clearedText : string := "Chat cleared. How else can I help you?".

Definition errorText : string :=
  "I'm sorry, I encountered an error. Please try again later.".

Definition defaultPrompt : string := "Analyze this image".

(** The initial [useState] values; [t0] is [new Date()] at mount. *)
Definition initialState (t0 : Z) : State :=
  mkState [mkMessage "1" bot greeting t0 None None] "" false None.

(** ** History serialization (lines 87-93) and the turn's parts (115-124) *)

(** [{ inlineData: { data: img.split(',')[1], mimeType: 'image/jpeg' } }] *)
Definition imagePart (img : string) : Api.Part :=
  Api.inlineData (nth_error (JS.split "," img) 1) "image/jpeg".

(** [...(image ? [imagePart] : [])] *)
Definition imageParts (o : option string) : list Api.Part :=
  match o with
  | Some img => if JS.truthy img then [imagePart img] else []
  | None => []
  end.

(** [msg.role === 'bot' ? 'model' : 'user'] *)
Definition apiRole (r : Role) : string :=
  match r with
  | bot => "model"
  | user => "user"
  end.

Definition toContent (msg : Message) : Api.Content :=
  Api.mkContent (apiRole (role msg))
                (imageParts (image msg) ++ [Api.textPart (content msg)]).

Definition serializeHistory (msgs : list Message) : list Api.Content :=
  map toContent msgs.

Definition buildMessageParts (userMessage : Message) : list Api.Part :=
  imageParts (image userMessage) ++ [Api.textPart (content userMessage)].

(** ** The environment of one call *)

(** What the two SDK calls made before the first [await] do. *)
Inductive SdkSetup : Type :=
| SetupOk
| ClientThrows   (* [new GoogleGenAI] throws *)
| CreateThrows.  (* [ai.chats.create] throws *)

(** Clock readings of the [catch] block: [Date.now()] on line 159 and
    [new Date()] on line 162. *)
Record CatchClock : Type := mkCatchClock { errorIdNow : Z; errorDate : Z }.

(** What [handleSend] reads from its environment before the first [await]:
    [process.env.GEMINI_API_KEY], the SDK's behaviour and the clock at lines
    68, 71, 104 and 111 (and in [catch], if it gets there). *)
Record SendEnv : Type := mkSendEnv {
  apiKey : option string;
  sdk : SdkSetup;
  userIdNow : Z;
  userDate : Z;
  botIdNow : Z;
  botDate : Z;
  onError : CatchClock
}.

(** Clock readings of [clearChat]: lines 173 and 176. *)
Record ClearClock : Type := mkClearClock { clearIdNow : Z; clearDate : Z }.

(** The locals of a suspended [handleSend]. *)
Module Frame.

Record t : Type := mk {
  userMessage : Message;
  history : list Api.Content;
  botMessageId : string;
  messageParts : list Api.Part;
  fullResponse : string;
  sources : list Source
}.

End Frame.

(** ** The [try] block as a computation over the state that may throw

    A [throw] keeps the state updates made before it. *)

Inductive Exn : Type :=
| MissingApiKey   (* line 83 *)
| SdkFailure.     (* thrown or rejected by the SDK *)

Definition M (A : Type) : Type := State -> (Exn + A) * State.

Definition ret {A} (a : A) : M A := fun s => (inr a, s).

Definition throw {A} (e : Exn) : M A := fun s => (inl e, s).

Definition bind {A B} (m : M A) (k : A -> M B) : M B :=
  fun s => match m s with
           | (inr a, s') => k a s'
           | (inl e, s') => (inl e, s')
           end.

Definition update (f : State -> State) : M unit := fun s => (inr tt, f s).

Notation "x <- m ;; k" := (bind m (fun x => k))
  (at level 61, m at next level, right associativity).
Notation "m ;; k" := (bind m (fun _ => k))
  (at level 61, right associativity).

(** [new GoogleGenAI({ apiKey })] *)
Definition newGoogleGenAI (env : SendEnv) : M unit :=
  match sdk env with
  | ClientThrows => throw SdkFailure
  | _ => ret tt
  end.

(** [ai.chats.create({ model, history, config })] *)
Definition chatsCreate (env : SendEnv) (history : list Api.Content) : M unit :=
  match sdk env with
  | CreateThrows => throw SdkFailure
  | _ => ret tt
  end.

Definition placeholder (env : SendEnv) : Message :=
  mkMessage (JS.toString (botIdNow env + 1)) bot "" (botDate env) None None.

(** Lines 81-128: from [try {] to the first [await].  [closure] is the
    [messages] captured by the handler. *)
Definition tryPrefix (env : SendEnv) (closure : list Message)
    (userMessage : Message) : M Frame.t :=
  (if JS.truthy_opt (apiKey env) then ret tt else throw MissingApiKey) ;;
  newGoogleGenAI env ;;
  let history := serializeHistory closure in
  chatsCreate env history ;;
  let botMessageId := JS.toString (botIdNow env + 1) in
  update (setMessages (fun prev => prev ++ [placeholder env])) ;;
  let messageParts := buildMessageParts userMessage in
  ret (Frame.mk userMessage history botMessageId messageParts "" []).

Definition errorMessage (clk : CatchClock) : Message :=
  mkMessage (JS.toString (errorIdNow clk)) bot errorText (errorDate clk)
            None None.

(** Lines 154-164. *)
Definition catchBlock (clk : CatchClock) : State -> State :=
  setMessages (fun prev => prev ++ [errorMessage clk]).

(** Lines 165-167. *)
Definition finallyBlock : State -> State := setIsLoading false.

(** ** Update-by-id (lines 148-152) *)

(** [{ ...msg, content: fullResponse,
       sources: sources.length > 0 ? sources : undefined }] *)
Definition withStreamed (fullResponse : string) (srcs : list Source)
    (msg : Message) : Message :=
  mkMessage (id msg) (role msg) fullResponse (timestamp msg) (image msg)
            (match srcs with [] => None | _ => Some srcs end).

(** [prev.map(msg => msg.id === botMessageId ? {...} : msg)] *)
Definition updateById (botMessageId fullResponse : string)
    (srcs : list Source) (prev : list Message) : list Message :=
  map (fun msg => if String.eqb (id msg) botMessageId
                  then withStreamed fullResponse srcs msg
                  else msg) prev.

(** ** The component as a transition system *)

Record World : Type := mkWorld { st : State; task : option Frame.t }.

(** Line 65: [(!input.trim() && !selectedImage) || isLoading]. *)
Definition sendBlocked (s : State) : bool :=
  (negb (JS.truthy (JS.trim (input s))) && negb (JS.truthy_opt (selectedImage s)))
  || isLoading s.

(** Lines 67-73. *)
Definition mkUserMessage (env : SendEnv) (s : State) : Message :=
  mkMessage (JS.toString (userIdNow env)) user
            (JS.or_str (JS.trim (input s))
                       (if JS.truthy_opt (selectedImage s)
                        then defaultPrompt else ""))
            (userDate env)
            (JS.or_undefined (selectedImage s))
            None.

(** [handleSend], up to its first suspension or to its return. *)
Definition handleSend (env : SendEnv) (w : World) : World :=
  let s := st w in
  if sendBlocked s then w
  else
    let userMessage := mkUserMessage env s in
    let s1 := setIsLoading true
                (setSelectedImage None
                   (setInput ""
                      (setMessages (fun prev => prev ++ [userMessage]) s))) in
    match tryPrefix env (messages s) userMessage s1 with
    | (inr frame, s2) => mkWorld s2 (Some frame)
    | (inl _, s2) => mkWorld (finallyBlock (catchBlock (onError env) s2)) (task w)
    end.

(** One iteration of [for await (const chunk of streamResponse)]. *)
Definition onChunk (c : Chunk) (f : Frame.t) (s : State) : Frame.t * State :=
  let fullResponse := (Frame.fullResponse f ++ JS.or_empty (text c))%string in
  let srcs := mergeSources (Frame.sources f) c in
  (Frame.mk (Frame.userMessage f) (Frame.history f) (Frame.botMessageId f)
            (Frame.messageParts f) fullResponse srcs,
   setMessages (updateById (Frame.botMessageId f) fullResponse srcs) s).

(** [clearChat] *)
Definition clearChat (clk : ClearClock) (s : State) : State :=
  setMessages
    (fun _ => [mkMessage (JS.toString (clearIdNow clk)) bot clearedText
                         (clearDate clk) None None]) s.

Inductive Event : Type :=
| SetInput (v : string)              (* textarea [onChange] *)
| ImageLoaded (result : option string) (* [reader.onloadend] *)
| RemoveImage                        (* the X button on the preview *)
| ClearChat (clk : ClearClock)
| Send (env : SendEnv)               (* the send button, or Enter *)
| StreamChunk (c : Chunk)            (* the stream yields a chunk *)
| StreamDone                         (* the stream is exhausted *)
| StreamError (clk : CatchClock).    (* the awaited promise rejects *)

(** The stream events are enabled only while a [handleSend] is suspended. *)
Definition step (w : World) (e : Event) : option World :=
  match e with
  | SetInput v => Some (mkWorld (setInput v (st w)) (task w))
  | ImageLoaded r => Some (mkWorld (setSelectedImage r (st w)) (task w))
  | RemoveImage => Some (mkWorld (setSelectedImage None (st w)) (task w))
  | ClearChat clk => Some (mkWorld (clearChat clk (st w)) (task w))
  | Send env => Some (handleSend env w)
  | StreamChunk c =>
      match task w with
      | Some f => let '(f', s') := onChunk c f (st w) in
                  Some (mkWorld s' (Some f'))
      | None => None
      end
  | StreamDone =>
      match task w with
      | Some _ => Some (mkWorld (finallyBlock (st w)) None)
      | None => None
      end
  | StreamError clk =>
      match task w with
      | Some _ => Some (mkWorld (finallyBlock (catchBlock clk (st w))) None)
      | None => None
      end
  end.

Definition initialWorld (t0 : Z) : World := mkWorld (initialState t0) None.

Inductive reachable : World -> Prop :=
| reachable_init : forall t0, reachable (initialWorld t0)
| reachable_step : forall w e w',
    reachable w -> step w e = Some w' -> reachable w'.

(** Running a list of events from a world. *)
Fixpoint run (w : World) (es : list Event) : option World :=
  match es with
  | [] => Some w
  | e :: es' => match step w e with
                | Some w' => run w' es'
                | None => None
                end
  end.

(** ** Reference reading of the merge

    [firstOccurrences seen l] keeps, from left to right, the records of [l]
    whose uri is neither in [seen] nor carried by an earlier record of [l].
    It is the recursive reading of "deduplicate by uri, first one wins";
    [uniqueByUri_firstOccurrences] shows that the index-based filter of the
    source computes it. *)

Definition mem (u : string) (seen : list string) : bool :=
  existsb (String.eqb u) seen.

Fixpoint firstOccurrences (seen : list string) (l : list Source) : list Source :=
  match l with
  | [] => []
  | v :: r =>
      if mem (uri v) seen then firstOccurrences seen r
      else v :: firstOccurrences (uri v :: seen) r
  end.

(** The index at which the uri of [s] is first seen in [all]. *)
Definition firstSeenAt (all : list Source) (s : Source) : Z :=
  JS.findIndex (sameUri s) all.

(** A chunk whose first candidate reports the single web source [u], [t]. *)
Definition webChunk (u t : string) : Chunk :=
  mkChunk None
    (Some [mkCandidate
             (Some (mkGroundingMetadata
                      (Some [mkGroundingChunk (Some (mkSource u t))])))]).

(** ** The environment's data

    [FileReader.readAsDataURL] delivers [data:<mime>;base64,<payload>];
    neither the media type nor the base64 payload contains a comma. *)

Definition dataURL (mime payload : string) : string :=
  ("data:" ++ mime ++ ";base64," ++ payload)%string.

Fixpoint noComma (s : string) : bool :=
  match s with
  | EmptyString => true
  | String c r => negb (Ascii.eqb c ",") && noComma r
  end.

(** An environment whose clock reads [t] at every call of one synchronous
    run (the run takes less than a millisecond). *)
Definition envAt (key : option string) (t : Z) : SendEnv :=
  mkSendEnv key SetupOk t t t t (mkCatchClock t t).

(** *** Sample runs *)

Definition sampleTime : Z := 1700000000000.

(** The user types "hi" and sends it; the key is configured. *)
Definition streamingWorld : World :=
  Eval vm_compute in
    match run (initialWorld 0)
              [SetInput "hi"; Send (envAt (Some "key") sampleTime)] with
    | Some w => w
    | None => initialWorld 0
    end.

(** The same, with no key configured. *)
Definition missingKeyWorld : World :=
  Eval vm_compute in
    match run (initialWorld 0) [SetInput "hi"; Send (envAt None sampleTime)] with
    | Some w => w
    | None => initialWorld 0
    end.

(** A picture is attached and sent without text. *)
Definition pictureWorld : World :=
  Eval vm_compute in
    match run (initialWorld 0)
              [ImageLoaded (Some (dataURL "image/png" "iVBORw0KGgo="))] with
    | Some w => w
    | None => initialWorld 0
    end.

Definition sessionOpens (env : SendEnv) : bool :=
  JS.truthy_opt (apiKey env) &&
  match sdk env with SetupOk => true | _ => false end.

(** The loading flag is set exactly while a [handleSend] is suspended, and
    the running source list of that activation has no repeated uri. *)
Definition consistent (w : World) : Prop :=
  match task w with
  | Some f => isLoading (st w) = true /\ NoDup (map uri (Frame.sources f))
  | None => isLoading (st w) = false
  end.

(** ** What the render reads from the state *)

(** Line 283: [isLoading && messages[messages.length - 1].content === ''].
    [&&] evaluates the index only when [isLoading] holds; on an empty
    transcript [messages[-1]] is [undefined] and reading [.content] throws,
    which is [None] here. *)
Definition thinkingVisible (s : State) : option bool :=
  if isLoading s then
    match nth_error (messages s) (length (messages s) - 1) with
    | Some m => Some (String.eqb (content m) "")
    | None => None
    end
  else Some false.

(** Line 249: [message.sources && message.sources.length > 0]. *)
Definition sourcesVisible (m : Message) : bool :=
  match sources m with
  | Some l => (0 <? Z.of_nat (length l))
  | None => false
  end.

(** ** Vocabulary of the further properties *)

(** The value of [fullResponse] after the loop has consumed [cs], starting
    from [acc]. *)
Definition accumulate (acc : string) (cs : list Chunk) : string :=
  fold_left (fun a c => (a ++ JS.or_empty (text c))%string) cs acc.

(** [sources.length > 0 ? sources : undefined] *)
Definition writtenSources (srcs : list Source) : option (list Source) :=
  match srcs with
  | [] => None
  | _ => Some srcs
  end.


(** In a list of roles, every [user] is directly followed by a [bot]. *)
Fixpoint answered (rs : list Role) : bool :=
  match rs with
  | [] => true
  | user :: r => match r with
                 | bot :: _ => answered r
                 | _ => false
                 end
  | bot :: r => answered r
  end.

(** A trace in which the clock has ticked between any two draws of an id:
    [hw] is the largest number an id was made from so far.  A send draws
    at line 68, then at line 104 (plus one) or at line 159; a stream error
    draws at line 159 and [clearChat] at line 173. *)
Fixpoint clockTicks (hw : Z) (es : list Event) : bool :=
  match es with
  | [] => true
  | e :: es' =>
      match e with
      | Send env =>
          (hw <? userIdNow env) && (userIdNow env <=? botIdNow env)
          && (userIdNow env <? errorIdNow (onError env))
          && clockTicks (Z.max (botIdNow env + 1) (errorIdNow (onError env))) es'
      | StreamError clk =>
          (hw <? errorIdNow clk) && clockTicks (errorIdNow clk) es'
      | ClearChat clk =>
          (hw <? clearIdNow clk) && clockTicks (clearIdNow clk) es'
      | _ => clockTicks hw es'
      end
  end.

(** What a message keeps for life: everything but [content] and
    [sources]. *)
Definition fixedPart (m : Message) : string * Role * Z * option string :=
  (id m, role m, timestamp m, image m).

(** The ids are distinct and all made from numbers up to [hw]. *)
Definition idsBelow (hw : Z) (msgs : list Message) : Prop :=
  NoDup (map id msgs) /\
  forall m, In m msgs -> exists n, id m = JS.toString n /\ n <= hw.

(** The reply being streamed has cited one web source. *)
Definition citedWorld : World :=
  Eval vm_compute in
    match run streamingWorld [StreamChunk (webChunk "https://a.example" "A")] with
    | Some w => w
    | None => streamingWorld
    end.

(** The events that edit the pending input or image, and the events of
    the stream. *)
Definition isPendingEdit (e : Event) : bool :=
  match e with
  | SetInput _ | ImageLoaded _ | RemoveImage => true
  | _ => false
  end.

Definition isStreamEvent (e : Event) : bool :=
  match e with
  | StreamChunk _ | StreamDone | StreamError _ => true
  | _ => false
  end.

(** * Properties *)

(** ** Arrays *)

Section ArrayFacts.
Context {A : Type}.
Implicit Types (p : A -> bool) (l pre : list A) (i : Z).

Lemma findIndex_from_skip p pre l i :
  existsb p pre = false ->
  JS.findIndex_from p (pre ++ l) i
  = JS.findIndex_from p l (i + Z.of_nat (length pre)).
Proof.
  revert i; induction pre as [|x pre IH]; intros i H; simpl in *.
  - f_equal; lia.
  - apply orb_false_iff in H as [Hx Hpre]. rewrite Hx, IH by assumption.
    f_equal; lia.
Qed.

Lemma findIndex_from_hit p pre l i :
  existsb p pre = true ->
  i <= JS.findIndex_from p (pre ++ l) i < i + Z.of_nat (length pre).
Proof.
  revert i; induction pre as [|x pre IH]; intros i H; simpl in *.
  - discriminate.
  - destruct (p x); [lia|]. simpl in H. specialize (IH (i + 1) H). lia.
Qed.

Lemma findIndex_from_range p l i :
  JS.findIndex_from p l i = -1 \/
  i <= JS.findIndex_from p l i < i + Z.of_nat (length l).
Proof.
  destruct (existsb p l) eqn:E.
  - right. pose proof (findIndex_from_hit p l [] i E) as H.
    now rewrite app_nil_r in H.
  - left. pose proof (findIndex_from_skip p l [] i E) as H.
    now rewrite app_nil_r in H.
Qed.

End ArrayFacts.

(** ** The merge keeps first occurrences *)

Lemma sameUri_refl v : sameUri v v = true.
Proof. apply String.eqb_refl. Qed.

Lemma sameUri_true v t : sameUri v t = true <-> uri t = uri v.
Proof. apply String.eqb_eq. Qed.

Lemma mem_In u seen : mem u seen = true <-> In u seen.
Proof.
  unfold mem. rewrite existsb_exists. split.
  - intros (x & Hx & E). apply String.eqb_eq in E. now subst.
  - intros H. exists u. split; [assumption | apply String.eqb_refl].
Qed.

Lemma mem_false u seen : mem u seen = false <-> ~ In u seen.
Proof.
  rewrite <- mem_In. destruct (mem u seen); split; congruence.
Qed.

Lemma existsb_sameUri v pre :
  existsb (sameUri v) pre = mem (uri v) (map uri pre).
Proof.
  induction pre as [|t pre IH]; simpl; [reflexivity|].
  rewrite IH. unfold sameUri. now rewrite (String.eqb_sym (uri t)).
Qed.

(** The filter of the source at array [pre ++ l], resumed at index
    [length pre], is [firstOccurrences] started with the uris of [pre]. *)
Lemma filter_from_firstOccurrences l : forall pre seen,
  (forall u, mem u seen = mem u (map uri pre)) ->
  JS.filter_from (fun v i a => JS.findIndex (sameUri v) a =? i)
                 (pre ++ l) l (Z.of_nat (length pre))
  = firstOccurrences seen l.
Proof.
  induction l as [|v r IH]; intros pre seen Hseen; simpl; [reflexivity|].
  assert (Hrec : pre ++ v :: r = (pre ++ [v]) ++ r)
    by now rewrite <- app_assoc.
  assert (Hlen : Z.of_nat (length pre) + 1 = Z.of_nat (length (pre ++ [v])))
    by (rewrite length_app; simpl; lia).
  rewrite Hseen, <- existsb_sameUri.
  destruct (existsb (sameUri v) pre) eqn:E.
  - pose proof (findIndex_from_hit (sameUri v) pre (v :: r) 0 E) as Hlt.
    unfold JS.findIndex.
    destruct (Z.eqb_spec (JS.findIndex_from (sameUri v) (pre ++ v :: r) 0)
                         (Z.of_nat (length pre))) as [Heq|_]; [lia|].
    rewrite Hrec, Hlen. apply IH. intros u.
    rewrite map_app, Hseen. unfold mem at 2. rewrite existsb_app. simpl.
    fold (mem u (map uri pre)). rewrite orb_false_r.
    destruct (String.eqb_spec u (uri v)) as [->|_];
      [|now rewrite orb_false_r].
    rewrite existsb_sameUri in E. now rewrite E.
  - unfold JS.findIndex. rewrite findIndex_from_skip by assumption.
    simpl. rewrite sameUri_refl, Z.eqb_refl.
    rewrite Hrec, Hlen. f_equal. apply IH. intros u.
    rewrite map_app. unfold mem. rewrite existsb_app. simpl.
    fold (mem u seen) (mem u (map uri pre)).
    rewrite Hseen, orb_false_r. apply orb_comm.
Qed.

Lemma uniqueByUri_firstOccurrences a : uniqueByUri a = firstOccurrences [] a.
Proof.
  unfold uniqueByUri, JS.filter_idx.
  apply (filter_from_firstOccurrences a [] []). reflexivity.
Qed.

Lemma firstOccurrences_In seen l s :
  In s (firstOccurrences seen l) -> In s l /\ ~ In (uri s) seen.
Proof.
  revert seen; induction l as [|v r IH]; intros seen H; simpl in *; [tauto|].
  destruct (mem (uri v) seen) eqn:E.
  - destruct (IH _ H). tauto.
  - destruct H as [<-|H].
    + split; [now left | now apply mem_false].
    + destruct (IH _ H) as [Hin Hns]. split; [now right|].
      intros Hs. apply Hns. now right.
Qed.

Lemma firstOccurrences_uris seen l u :
  In u (map uri (firstOccurrences seen l)) <->
  In u (map uri l) /\ ~ In u seen.
Proof.
  revert seen; induction l as [|v r IH]; intros seen; simpl; [tauto|].
  destruct (mem (uri v) seen) eqn:E.
  - rewrite IH. apply mem_In in E. split; [tauto|].
    intros [[<-|H] Hn]; tauto.
  - apply mem_false in E. simpl. rewrite IH. simpl.
    destruct (string_dec (uri v) u) as [<-|Hne]; tauto.
Qed.

Lemma firstOccurrences_NoDup seen l :
  NoDup (map uri (firstOccurrences seen l)).
Proof.
  revert seen; induction l as [|v r IH]; intros seen; simpl; [constructor|].
  destruct (mem (uri v) seen); [apply IH|].
  simpl. constructor; [|apply IH].
  rewrite firstOccurrences_uris. simpl. tauto.
Qed.

(** [firstOccurrences] only looks at which uris have been seen. *)
Lemma firstOccurrences_ext l : forall seen seen',
  (forall u, In u seen <-> In u seen') ->
  firstOccurrences seen l = firstOccurrences seen' l.
Proof.
  induction l as [|v r IH]; intros seen seen' H; simpl; [reflexivity|].
  assert (E : mem (uri v) seen = mem (uri v) seen').
  { destruct (mem (uri v) seen) eqn:E1, (mem (uri v) seen') eqn:E2;
      try reflexivity.
    - apply mem_In in E1. apply mem_false in E2. now apply H in E1.
    - apply mem_In in E2. apply mem_false in E1. now apply H in E2. }
  rewrite <- E. destruct (mem (uri v) seen).
  - now apply IH.
  - f_equal. apply IH. intros u. simpl. now rewrite H.
Qed.

Lemma firstOccurrences_app a : forall seen b,
  firstOccurrences seen (a ++ b)
  = firstOccurrences seen a ++ firstOccurrences (map uri a ++ seen) b.
Proof.
  induction a as [|v r IH]; intros seen b; simpl; [reflexivity|].
  destruct (mem (uri v) seen) eqn:E.
  - rewrite IH. f_equal. apply firstOccurrences_ext. intros u.
    apply mem_In in E. simpl. rewrite !in_app_iff.
    split; [tauto|]. intros [<-|H]; tauto.
  - rewrite IH. simpl. f_equal. f_equal. apply firstOccurrences_ext.
    intros u. simpl. rewrite !in_app_iff. simpl. tauto.
Qed.

Lemma firstOccurrences_fixed l : forall seen,
  NoDup (map uri l) ->
  (forall u, In u (map uri l) -> ~ In u seen) ->
  firstOccurrences seen l = l.
Proof.
  induction l as [|v r IH]; intros seen Hnd Hfresh; simpl; [reflexivity|].
  simpl in Hnd. inversion Hnd as [|? ? Hv Hr]; subst.
  assert (E : mem (uri v) seen = false).
  { apply mem_false. apply Hfresh. now left. }
  rewrite E. f_equal. apply IH; [assumption|].
  intros u Hu [<-|Hs]; [contradiction|].
  apply (Hfresh u); [now right | assumption].
Qed.

Lemma uniqueByUri_NoDup a : NoDup (map uri (uniqueByUri a)).
Proof. rewrite uniqueByUri_firstOccurrences. apply firstOccurrences_NoDup. Qed.

Lemma uniqueByUri_fixed a : NoDup (map uri a) -> uniqueByUri a = a.
Proof.
  intros H. rewrite uniqueByUri_firstOccurrences.
  apply firstOccurrences_fixed; [assumption | intros u _ []].
Qed.

(** Merging new records into a list already free of repeated uris only
    appends to it. *)
Lemma uniqueByUri_extends srcs new :
  NoDup (map uri srcs) ->
  uniqueByUri (srcs ++ new)
  = srcs ++ firstOccurrences (map uri srcs) new.
Proof.
  intros H. rewrite uniqueByUri_firstOccurrences, firstOccurrences_app.
  rewrite app_nil_r. f_equal.
  rewrite <- uniqueByUri_firstOccurrences. now apply uniqueByUri_fixed.
Qed.

(** Deduplicating the running list again together with new records is
    deduplicating everything seen so far. *)
Lemma uniqueByUri_absorb a b :
  uniqueByUri (uniqueByUri a ++ b) = uniqueByUri (a ++ b).
Proof.
  rewrite uniqueByUri_extends by apply uniqueByUri_NoDup.
  rewrite (uniqueByUri_firstOccurrences (a ++ b)), firstOccurrences_app.
  rewrite app_nil_r, <- uniqueByUri_firstOccurrences. f_equal.
  apply firstOccurrences_ext. intros u.
  rewrite uniqueByUri_firstOccurrences, firstOccurrences_uris. simpl. tauto.
Qed.

Lemma mergeSources_extracted srcs c :
  mergeSources (uniqueByUri srcs) c = uniqueByUri (srcs ++ extracted c).
Proof.
  unfold mergeSources, extracted. destruct (groundingChunksOf c).
  - apply uniqueByUri_absorb.
  - now rewrite app_nil_r.
Qed.

Lemma fold_mergeSources cs : forall a,
  fold_left mergeSources cs (uniqueByUri a)
  = uniqueByUri (a ++ flat_map extracted cs).
Proof.
  induction cs as [|c cs IH]; intros a; simpl.
  - now rewrite app_nil_r.
  - rewrite mergeSources_extracted, IH. now rewrite <- app_assoc.
Qed.

Lemma mergeAll_firstOccurrences cs :
  mergeAll cs = firstOccurrences [] (flat_map extracted cs).
Proof.
  unfold mergeAll. rewrite <- uniqueByUri_firstOccurrences.
  apply (fold_mergeSources cs []).
Qed.

Lemma mergeSources_NoDup srcs c :
  NoDup (map uri srcs) -> NoDup (map uri (mergeSources srcs c)).
Proof.
  intros H. unfold mergeSources. destruct (groundingChunksOf c);
    [apply uniqueByUri_NoDup | assumption].
Qed.

Lemma mergeSources_extends srcs c :
  NoDup (map uri srcs) -> exists extra, mergeSources srcs c = srcs ++ extra.
Proof.
  intros H. unfold mergeSources. destruct (groundingChunksOf c) as [gcs|].
  - eexists. now apply uniqueByUri_extends.
  - exists []. now rewrite app_nil_r.
Qed.

(** A kept record is the first record of the input with its uri. *)
Lemma firstOccurrences_find l : forall seen s,
  In s (firstOccurrences seen l) -> find (sameUri s) l = Some s.
Proof.
  induction l as [|v r IH]; intros seen s H; simpl in *; [contradiction|].
  destruct (mem (uri v) seen) eqn:E.
  - destruct (sameUri s v) eqn:Es.
    + apply sameUri_true in Es. apply firstOccurrences_In in H as [_ Hn].
      apply mem_In in E. congruence.
    + now apply (IH seen).
  - destruct H as [<-|H]; [now rewrite sameUri_refl|].
    destruct (sameUri s v) eqn:Es.
    + apply sameUri_true in Es. apply firstOccurrences_In in H as [_ Hn].
      exfalso. apply Hn. left. congruence.
    + now apply (IH (uri v :: seen)).
Qed.

(** The kept records are kept in the order in which their uris first
    appear. *)
Lemma firstOccurrences_sorted l : forall seen i,
  StronglySorted Z.lt
    (map (fun s => JS.findIndex_from (sameUri s) l i)
         (firstOccurrences seen l)) /\
  Forall (fun s => i <= JS.findIndex_from (sameUri s) l i)
         (firstOccurrences seen l).
Proof.
  induction l as [|v r IH]; intros seen i; simpl.
  - split; constructor.
  - destruct (mem (uri v) seen) eqn:E.
    + destruct (IH seen (i + 1)) as [Hs Hf].
      assert (Hstep : forall s, In s (firstOccurrences seen r) ->
                (if sameUri s v then i
                 else JS.findIndex_from (sameUri s) r (i + 1))
                = JS.findIndex_from (sameUri s) r (i + 1)).
      { intros s Hin. destruct (sameUri s v) eqn:Es; [|reflexivity].
        apply sameUri_true in Es. apply firstOccurrences_In in Hin as [_ Hn].
        apply mem_In in E. congruence. }
      split.
      * rewrite (map_ext_in _ _ _ Hstep). exact Hs.
      * rewrite Forall_forall in *. intros s Hin.
        rewrite (Hstep s Hin). specialize (Hf s Hin). simpl in Hf. lia.
    + destruct (IH (uri v :: seen) (i + 1)) as [Hs Hf].
      assert (Hstep : forall s, In s (firstOccurrences (uri v :: seen) r) ->
                (if sameUri s v then i
                 else JS.findIndex_from (sameUri s) r (i + 1))
                = JS.findIndex_from (sameUri s) r (i + 1)).
      { intros s Hin. destruct (sameUri s v) eqn:Es; [|reflexivity].
        apply sameUri_true in Es. apply firstOccurrences_In in Hin as [_ Hn].
        exfalso. apply Hn. left. congruence. }
      simpl. rewrite sameUri_refl. split.
      * constructor.
        -- rewrite (map_ext_in _ _ _ Hstep). exact Hs.
        -- rewrite Forall_map, Forall_forall in *. intros s Hin.
           rewrite (Hstep s Hin). specialize (Hf s Hin). simpl in Hf. lia.
      * constructor; [rewrite sameUri_refl; lia|].
        rewrite Forall_forall in *. intros s Hin.
        rewrite (Hstep s Hin). specialize (Hf s Hin). simpl in Hf. lia.
Qed.

(** The loop, run over the chunks [cs] from a suspended activation, folds
    [mergeSources] over them. *)
Lemma run_chunks cs : forall w f,
  task w = Some f ->
  exists w' f',
    run w (map StreamChunk cs) = Some w' /\
    task w' = Some f' /\
    Frame.botMessageId f' = Frame.botMessageId f /\
    Frame.sources f' = fold_left mergeSources cs (Frame.sources f).
Proof.
  induction cs as [|c cs IH]; intros w f Hf; simpl.
  - exists w, f. repeat split; assumption.
  - rewrite Hf.
    destruct (IH (mkWorld (snd (onChunk c f (st w)))
                          (Some (fst (onChunk c f (st w)))))
                 (fst (onChunk c f (st w))) eq_refl)
      as (w' & f' & Hrun & Ht & Hid & Hsrc).
    exists w', f'. simpl in *. repeat split; assumption.
Qed.

(** ** C1 *)

(** C1. For every sequence of streamed chunks, the merged source list
    carries every reported uri exactly once, the record kept for a uri is
    the first record of the stream with that uri (so its title is the first
    title), and the records are in first-seen order; two chunks reporting
    the same uri under two titles give one record with the first title. *)
Theorem merged_sources_unique_first_seen (cs : list Chunk) :
  let all := flat_map extracted cs in
  let out := mergeAll cs in
  NoDup (map uri out) /\
  (forall u, In u (map uri all) <-> In u (map uri out)) /\
  (forall u, In u (map uri all) ->
             count_occ string_dec (map uri out) u = 1%nat) /\
  (forall s, In s out -> find (sameUri s) all = Some s) /\
  StronglySorted Z.lt (map (firstSeenAt all) out) /\
  (forall u t1 t2, mergeAll [webChunk u t1; webChunk u t2] = [mkSource u t1]) /\
  (forall w f, task w = Some f -> Frame.sources f = [] ->
     exists w' f', run w (map StreamChunk cs) = Some w' /\
                   task w' = Some f' /\ Frame.sources f' = out).
Proof.
  intros all out.
  assert (Hout : out = firstOccurrences [] all)
    by apply mergeAll_firstOccurrences.
  assert (Hnd : NoDup (map uri out))
    by (rewrite Hout; apply firstOccurrences_NoDup).
  assert (Huris : forall u, In u (map uri all) <-> In u (map uri out)).
  { intros u. rewrite Hout, firstOccurrences_uris. simpl. tauto. }
  split; [exact Hnd|].
  split; [exact Huris|].
  split.
  { intros u Hu. apply Huris in Hu. revert u Hu.
    now apply (NoDup_count_occ' string_dec). }
  split.
  { intros s. rewrite Hout. apply firstOccurrences_find. }
  split.
  { rewrite Hout. apply (firstOccurrences_sorted all [] 0). }
  split.
  { intros u t1 t2. rewrite mergeAll_firstOccurrences. simpl.
    unfold mem. simpl. now rewrite String.eqb_refl. }
  intros w f Hf Hnil.
  destruct (run_chunks cs w f Hf) as (w' & f' & H1 & H2 & _ & H3).
  exists w', f'. rewrite Hnil in H3. repeat split; assumption.
Qed.

(** ** The three ways through [handleSend] *)

Lemma handleSend_blocked env w :
  sendBlocked (st w) = true -> handleSend env w = w.
Proof. intros H. unfold handleSend. now rewrite H. Qed.

Lemma handleSend_fails env w :
  sendBlocked (st w) = false ->
  sessionOpens env = false ->
  handleSend env w
  = mkWorld (mkState (messages (st w)
                        ++ [mkUserMessage env (st w); errorMessage (onError env)])
                     "" false None)
            (task w).
Proof.
  intros Hb Hs. unfold handleSend. rewrite Hb.
  unfold sessionOpens in Hs.
  unfold tryPrefix, newGoogleGenAI, chatsCreate, bind, ret, throw, update.
  destruct (JS.truthy_opt (apiKey env)); simpl in *.
  - destruct (sdk env); try discriminate; simpl;
      unfold finallyBlock, catchBlock, setIsLoading, setMessages; simpl;
      now rewrite <- app_assoc.
  - unfold finallyBlock, catchBlock, setIsLoading, setMessages; simpl.
    now rewrite <- app_assoc.
Qed.

Lemma handleSend_suspends env w :
  sendBlocked (st w) = false ->
  sessionOpens env = true ->
  handleSend env w
  = mkWorld (mkState (messages (st w)
                        ++ [mkUserMessage env (st w); placeholder env])
                     "" true None)
            (Some (Frame.mk (mkUserMessage env (st w))
                            (serializeHistory (messages (st w)))
                            (JS.toString (botIdNow env + 1))
                            (buildMessageParts (mkUserMessage env (st w)))
                            "" [])).
Proof.
  intros Hb Hs. unfold handleSend. rewrite Hb.
  unfold sessionOpens in Hs. apply andb_true_iff in Hs as [Hk Hsdk].
  unfold tryPrefix, newGoogleGenAI, chatsCreate, bind, ret, throw, update.
  rewrite Hk. destruct (sdk env); try discriminate. simpl.
  unfold setMessages; simpl. now rewrite <- app_assoc.
Qed.

(** ** Invariants of the reachable worlds *)

Lemma run_reachable es : forall w w',
  reachable w -> run w es = Some w' -> reachable w'.
Proof.
  induction es as [|e es IH]; intros w w' Hr H; simpl in H.
  - now inversion H; subst.
  - destruct (step w e) as [w1|] eqn:E; [|discriminate].
    apply (IH w1); [|assumption]. now apply reachable_step with w e.
Qed.

Lemma sendBlocked_loading s : isLoading s = true -> sendBlocked s = true.
Proof. intros H. unfold sendBlocked. rewrite H. apply orb_true_r. Qed.

Lemma step_consistent w e w' :
  consistent w -> step w e = Some w' -> consistent w'.
Proof.
  unfold consistent. intros Hc H.
  destruct e; simpl in H.
  - inversion H; subst; clear H. simpl. exact Hc.
  - inversion H; subst; clear H. simpl. exact Hc.
  - inversion H; subst; clear H. simpl. exact Hc.
  - inversion H; subst; clear H. simpl. exact Hc.
  - inversion H; subst; clear H.
    destruct (sendBlocked (st w)) eqn:Hb.
    + now rewrite handleSend_blocked.
    + destruct (sessionOpens env) eqn:Hs.
      * rewrite handleSend_suspends by assumption. simpl.
        split; [reflexivity | constructor].
      * rewrite handleSend_fails by assumption. simpl.
        destruct (task w) as [f|]; [|reflexivity].
        destruct Hc as [Hl _]. apply sendBlocked_loading in Hl. congruence.
  - destruct (task w) as [f|]; [|discriminate].
    inversion H; subst; clear H. simpl. destruct Hc as [Hl Hnd].
    split; [assumption | now apply mergeSources_NoDup].
  - destruct (task w); [|discriminate]. now inversion H.
  - destruct (task w); [|discriminate]. now inversion H.
Qed.

Lemma reachable_consistent w : reachable w -> consistent w.
Proof.
  induction 1 as [t0|w e w' _ IH H].
  - reflexivity.
  - now apply step_consistent with w e.
Qed.

Lemma reachable_idle w :
  reachable w -> isLoading (st w) = false -> task w = None.
Proof.
  intros Hr Hl. apply reachable_consistent in Hr. unfold consistent in Hr.
  destruct (task w); [|reflexivity]. destruct Hr. congruence.
Qed.

Lemma sendBlocked_false s :
  sendBlocked s = false ->
  isLoading s = false /\
  (JS.truthy (JS.trim (input s)) = true \/
   JS.truthy_opt (selectedImage s) = true).
Proof.
  unfold sendBlocked. intros H. apply orb_false_iff in H as [H1 H2].
  split; [assumption|]. apply andb_false_iff in H1.
  destruct H1 as [H1|H1]; apply negb_false_iff in H1; tauto.
Qed.

Lemma streamingWorld_reachable : reachable streamingWorld.
Proof.
  apply (run_reachable [SetInput "hi"; Send (envAt (Some "key") sampleTime)]
                       (initialWorld 0)); [constructor | reflexivity].
Qed.

Lemma missingKeyWorld_reachable : reachable missingKeyWorld.
Proof.
  apply (run_reachable [SetInput "hi"; Send (envAt None sampleTime)]
                       (initialWorld 0)); [constructor | reflexivity].
Qed.

Lemma pictureWorld_reachable : reachable pictureWorld.
Proof.
  apply (run_reachable
           [ImageLoaded (Some (dataURL "image/png" "iVBORw0KGgo="))]
           (initialWorld 0)); [constructor | reflexivity].
Qed.

(** ** Splitting a data URL *)

Lemma split_noComma s : noComma s = true -> JS.split "," s = [s].
Proof.
  induction s as [|c r IH]; simpl; [reflexivity|].
  intros H. apply andb_true_iff in H as [Hc Hr].
  apply negb_true_iff in Hc. rewrite Hc, (IH Hr). reflexivity.
Qed.

Lemma split_at_comma a b :
  noComma a = true ->
  JS.split "," (a ++ String "," b)%string = a :: JS.split "," b.
Proof.
  induction a as [|c r IH]; simpl; [reflexivity|].
  intros H. apply andb_true_iff in H as [Hc Hr].
  apply negb_true_iff in Hc. rewrite Hc, (IH Hr). reflexivity.
Qed.

Lemma append_assoc' (a b c : string) :
  ((a ++ b) ++ c)%string = (a ++ (b ++ c))%string.
Proof. induction a as [|x a IH]; simpl; [reflexivity | now rewrite IH]. Qed.

Lemma noComma_append a b :
  noComma (a ++ b)%string = noComma a && noComma b.
Proof.
  induction a as [|x a IH]; simpl; [reflexivity|].
  now rewrite IH, andb_assoc.
Qed.

Lemma split_dataURL mime payload :
  noComma mime = true -> noComma payload = true ->
  JS.split "," (dataURL mime payload)
  = [("data:" ++ mime ++ ";base64")%string; payload].
Proof.
  intros Hm Hp. unfold dataURL.
  replace ("data:" ++ mime ++ ";base64," ++ payload)%string
    with (("data:" ++ mime ++ ";base64") ++ String "," payload)%string.
  - rewrite split_at_comma, (split_noComma payload Hp); [reflexivity|].
    rewrite !noComma_append, Hm. reflexivity.
  - rewrite !append_assoc'. reflexivity.
Qed.

Lemma imageParts_dataURL mime payload :
  noComma mime = true -> noComma payload = true ->
  imageParts (Some (dataURL mime payload))
  = [Api.inlineData (Some payload) "image/jpeg"].
Proof.
  intros Hm Hp. unfold imageParts, imagePart.
  rewrite (split_dataURL _ _ Hm Hp). reflexivity.
Qed.

(** ** Update-by-id and the shape of every transition *)

Lemma updateById_length target fr srcs prev :
  length (updateById target fr srcs prev) = length prev.
Proof. apply length_map. Qed.

Lemma updateById_ids target fr srcs prev :
  map id (updateById target fr srcs prev) = map id prev.
Proof.
  unfold updateById. rewrite map_map. apply map_ext.
  intros m. now destruct (String.eqb (id m) target).
Qed.

Lemma updateById_nth target fr srcs prev i m :
  nth_error prev i = Some m ->
  nth_error (updateById target fr srcs prev) i
  = Some (if String.eqb (id m) target then withStreamed fr srcs m else m).
Proof.
  intros H. unfold updateById. rewrite nth_error_map, H. reflexivity.
Qed.

Lemma updateById_In target fr srcs prev m :
  In m (updateById target fr srcs prev) ->
  id m = target ->
  content m = fr /\
  sources m = match srcs with [] => None | _ => Some srcs end.
Proof.
  unfold updateById. rewrite in_map_iff. intros (m0 & Hm & _) Hid.
  destruct (String.eqb_spec (id m0) target) as [_|Hne].
  - subst m. simpl. split; reflexivity.
  - subst m. contradiction.
Qed.

(** What each event does to the transcript: [clearChat] replaces it by one
    fresh message, a chunk updates it by id, everything else appends. *)
Lemma step_transcript w e w' :
  step w e = Some w' ->
  match e with
  | ClearChat clk =>
      messages (st w')
      = [mkMessage (JS.toString (clearIdNow clk)) bot clearedText
                   (clearDate clk) None None]
  | StreamChunk c =>
      exists target fr srcs,
        messages (st w') = updateById target fr srcs (messages (st w))
  | _ => exists added, messages (st w') = messages (st w) ++ added
  end.
Proof.
  intros H. destruct e; simpl in H.
  - inversion H; subst; simpl. exists []. now rewrite app_nil_r.
  - inversion H; subst; simpl. exists []. now rewrite app_nil_r.
  - inversion H; subst; simpl. exists []. now rewrite app_nil_r.
  - inversion H; subst; reflexivity.
  - inversion H; subst; clear H.
    destruct (sendBlocked (st w)) eqn:Hb.
    + rewrite handleSend_blocked by assumption.
      exists []. now rewrite app_nil_r.
    + destruct (sessionOpens env) eqn:Hs.
      * rewrite handleSend_suspends by assumption. simpl. eauto.
      * rewrite handleSend_fails by assumption. simpl. eauto.
  - destruct (task w) as [f|]; [|discriminate].
    inversion H; subst; simpl. eauto.
  - destruct (task w); [|discriminate].
    inversion H; subst; simpl. exists []. now rewrite app_nil_r.
  - destruct (task w); [|discriminate].
    inversion H; subst; simpl. eauto.
Qed.

Lemma step_length w e w' :
  step w e = Some w' ->
  (1 <= length (messages (st w)))%nat ->
  (1 <= length (messages (st w')))%nat.
Proof.
  intros H Hl. apply step_transcript in H. destruct e;
    try (destruct H as (added & ->); rewrite length_app; lia).
  - rewrite H. simpl. lia.
  - destruct H as (t & fr & srcs & ->). now rewrite updateById_length.
Qed.

Lemma reachable_nonempty w :
  reachable w -> (1 <= length (messages (st w)))%nat.
Proof.
  induction 1 as [t0|w e w' _ IH H]; [simpl; lia|].
  now apply step_length with w e.
Qed.

Lemma userMessage_content env s :
  sendBlocked s = false -> content (mkUserMessage env s) <> "".
Proof.
  intros H. apply sendBlocked_false in H as [_ H]. simpl. unfold JS.or_str.
  destruct (JS.truthy (JS.trim (input s))) eqn:E.
  - unfold JS.truthy in E. apply negb_true_iff in E.
    now apply String.eqb_neq in E.
  - destruct H as [H|H]; [discriminate|]. rewrite H. discriminate.
Qed.

(** ** C2 *)

(** C2. When a send is accepted and the session opens, the history handed
    to the session has one turn per message of the transcript as it stood
    before this turn, in transcript order (the user message appended by this
    very send is not in it); a bot message is tagged "model" and a user
    message "user"; a turn's parts are the text part, preceded, for a
    message with an image, by the payload of its data URL under the fixed
    MIME type "image/jpeg". *)
Theorem history_serializes_prior_transcript (env : SendEnv) (w : World) :
  sendBlocked (st w) = false ->
  sessionOpens env = true ->
  exists w' f userMessage,
    step w (Send env) = Some w' /\
    task w' = Some f /\
    messages (st w') = messages (st w) ++ [userMessage; placeholder env] /\
    role userMessage = user /\
    length (Frame.history f) = length (messages (st w)) /\
    forall i m, nth_error (messages (st w)) i = Some m ->
      exists c,
        nth_error (Frame.history f) i = Some c /\
        Api.role c = match role m with bot => "model" | user => "user" end /\
        (image m = None -> Api.parts c = [Api.textPart (content m)]) /\
        (forall mime payload,
            image m = Some (dataURL mime payload) ->
            noComma mime = true -> noComma payload = true ->
            Api.parts c = [Api.inlineData (Some payload) "image/jpeg";
                           Api.textPart (content m)]).
Proof.
  intros Hb Hs. eexists _, _, (mkUserMessage env (st w)). simpl.
  rewrite (handleSend_suspends env w Hb Hs).
  split; [reflexivity|]. split; [reflexivity|]. simpl.
  repeat split.
  - unfold serializeHistory. apply length_map.
  - intros i m Hm. exists (toContent m). unfold serializeHistory.
    rewrite nth_error_map, Hm. simpl. repeat split.
    + intros Hi. now rewrite Hi.
    + intros mime payload Hi Hmime Hp.
      now rewrite Hi, (imageParts_dataURL _ _ Hmime Hp).
Qed.

Lemma history_serializes_prior_transcript_witness :
  exists w' f,
    step pictureWorld (Send (envAt (Some "key") sampleTime)) = Some w' /\
    task w' = Some f /\
    length (Frame.history f) = 1%nat.
Proof.
  destruct (history_serializes_prior_transcript
              (envAt (Some "key") sampleTime) pictureWorld
              eq_refl eq_refl)
    as (w' & f & u & Hstep & Htask & _ & _ & Hlen & _).
  exists w', f. repeat split; assumption.
Defined.

(** ** C3 *)

(** C3. A send request made while the trimmed input is empty and no image
    is attached, or while a send is in flight, changes nothing: transcript,
    pending input, pending image and loading flag are as before. *)
Theorem blocked_send_is_noop (env : SendEnv) (w : World) :
  (JS.trim (input (st w)) = "" /\ JS.truthy_opt (selectedImage (st w)) = false)
  \/ isLoading (st w) = true ->
  step w (Send env) = Some w.
Proof.
  intros H. simpl. f_equal. apply handleSend_blocked. unfold sendBlocked.
  destruct H as [[Ht Hi]|Hl].
  - now rewrite Ht, Hi.
  - rewrite Hl. apply orb_true_r.
Qed.

Lemma blocked_send_is_noop_witness :
  step (initialWorld 0) (Send (envAt (Some "key") sampleTime))
  = Some (initialWorld 0)
  /\ step streamingWorld (Send (envAt (Some "key") sampleTime))
     = Some streamingWorld.
Proof.
  split.
  - apply blocked_send_is_noop. left. split; reflexivity.
  - apply blocked_send_is_noop. right. reflexivity.
Defined.

(** ** C4 *)

(** C4, as the claim states its last clause: every return of [handleSend],
    the early return of line 65 included, leaves the loading flag cleared.
    It fails for a request made while a send is in flight. *)
Lemma early_exit_keeps_flag_set :
  let env := envAt (Some "key") (sampleTime + 7) in
  reachable streamingWorld /\
  sendBlocked (st streamingWorld) = true /\
  exists w', step streamingWorld (Send env) = Some w' /\
             isLoading (st w') = true.
Proof.
  split; [apply streamingWorld_reachable|].
  split; [reflexivity|].
  exists streamingWorld. split; reflexivity.
Qed.

(** C4 (amended). An error before the first [await] (missing key, or the
    SDK throwing while the session is set up) or during the stream appends
    a new bot message carrying the fixed error text, leaves every message
    already in the transcript (a placeholder included) as it is, and clears
    the loading flag; a stream that ends normally clears the flag and
    leaves the transcript alone.  The early return of line 65 touches
    nothing, so the flag stays as it was. *)
Theorem send_pipeline_exits (w : World) (e : Event) (w' : World) :
  step w e = Some w' ->
  (forall env, e = Send env ->
     sendBlocked (st w) = false -> sessionOpens env = false ->
     messages (st w')
     = messages (st w) ++ [mkUserMessage env (st w); errorMessage (onError env)]
     /\ isLoading (st w') = false) /\
  (forall clk, e = StreamError clk ->
     messages (st w') = messages (st w) ++ [errorMessage clk]
     /\ isLoading (st w') = false /\ task w' = None) /\
  (e = StreamDone ->
     messages (st w') = messages (st w)
     /\ isLoading (st w') = false /\ task w' = None) /\
  (forall env, e = Send env -> sendBlocked (st w) = true -> w' = w) /\
  (forall clk, role (errorMessage clk) = bot
               /\ content (errorMessage clk) = errorText
               /\ image (errorMessage clk) = None
               /\ sources (errorMessage clk) = None).
Proof.
  intros H. repeat split.
  - subst e. simpl in H. rewrite handleSend_fails in H by assumption.
    now inversion H.
  - subst e. simpl in H. rewrite handleSend_fails in H by assumption.
    now inversion H.
  - subst e. simpl in H. destruct (task w); [|discriminate]. now inversion H.
  - subst e. simpl in H. destruct (task w); [|discriminate]. now inversion H.
  - subst e. simpl in H. destruct (task w); [|discriminate]. now inversion H.
  - subst e. simpl in H. destruct (task w); [|discriminate]. now inversion H.
  - subst e. simpl in H. destruct (task w); [|discriminate]. now inversion H.
  - subst e. simpl in H. destruct (task w); [|discriminate]. now inversion H.
  - intros env -> Hb. simpl in H. rewrite handleSend_blocked in H by assumption.
    now inversion H.
Qed.

Lemma send_pipeline_exits_witness :
  let clk := mkCatchClock (sampleTime + 900) (sampleTime + 900) in
  exists w',
    step streamingWorld (StreamError clk) = Some w' /\
    messages (st w') = messages (st streamingWorld) ++ [errorMessage clk] /\
    isLoading (st w') = false /\ task w' = None.
Proof.
  intros clk.
  exists (mkWorld (finallyBlock (catchBlock clk (st streamingWorld))) None).
  split; [reflexivity|].
  exact (proj1 (proj2 (send_pipeline_exits streamingWorld (StreamError clk) _
                         eq_refl)) clk eq_refl).
Defined.

(** ** C5 *)

(** C5. With no API key, an accepted send adds exactly two messages, the
    user message and the bot message with the error text; no activation is
    left waiting on the SDK (nothing was sent), the loading flag is clear,
    and neither new message has empty content: no placeholder was
    inserted. *)
Theorem missing_credential_send (env : SendEnv) (w : World) :
  reachable w ->
  sendBlocked (st w) = false ->
  JS.truthy_opt (apiKey env) = false ->
  exists w' u e,
    step w (Send env) = Some w' /\
    messages (st w') = messages (st w) ++ [u; e] /\
    role u = user /\ content u <> "" /\
    role e = bot /\ content e = errorText /\ content e <> "" /\
    task w' = None /\ isLoading (st w') = false.
Proof.
  intros Hr Hb Hk.
  assert (Hs : sessionOpens env = false)
    by (unfold sessionOpens; now rewrite Hk).
  exists (handleSend env w), (mkUserMessage env (st w)),
         (errorMessage (onError env)).
  simpl step. rewrite (handleSend_fails env w Hb Hs). simpl.
  repeat split; try reflexivity.
  - now apply (userMessage_content env (st w)).
  - discriminate.
  - apply reachable_idle; [assumption|].
    now apply sendBlocked_false in Hb as [Hl _].
Qed.

Lemma missing_credential_send_witness :
  exists w' u e,
    step pictureWorld (Send (envAt None sampleTime)) = Some w' /\
    messages (st w') = messages (st pictureWorld) ++ [u; e] /\
    role u = user /\ content u <> "" /\
    role e = bot /\ content e = errorText /\ content e <> "" /\
    task w' = None /\ isLoading (st w') = false.
Proof.
  apply missing_credential_send.
  - apply pictureWorld_reachable.
  - reflexivity.
  - reflexivity.
Defined.

(** ** C6 *)

(** C6. The activation starts with an empty accumulated response and an
    empty source list, and the placeholder it appends has empty content.
    Each chunk extends the accumulated response by the chunk's text and
    extends the source list at its end; these values are what the chunk's
    update writes into every message carrying the placeholder's id. *)
Theorem streaming_grows_monotonically (w : World) :
  reachable w ->
  (forall env w' f,
     step w (Send env) = Some w' -> task w = None -> task w' = Some f ->
     Frame.fullResponse f = "" /\ Frame.sources f = [] /\
     exists before,
       messages (st w')
       = before ++ [mkMessage (Frame.botMessageId f) bot "" (botDate env)
                              None None]) /\
  (forall c f w',
     task w = Some f -> step w (StreamChunk c) = Some w' ->
     exists f',
       task w' = Some f' /\
       Frame.botMessageId f' = Frame.botMessageId f /\
       Frame.fullResponse f'
       = (Frame.fullResponse f ++ JS.or_empty (text c))%string /\
       (exists extra, Frame.sources f' = Frame.sources f ++ extra) /\
       forall m, In m (messages (st w')) -> id m = Frame.botMessageId f ->
         content m = Frame.fullResponse f' /\
         sources m = match Frame.sources f' with
                     | [] => None
                     | _ => Some (Frame.sources f')
                     end).
Proof.
  intros Hr. split.
  - intros env w' f H Hnone Hsome. simpl in H. inversion H; subst w'; clear H.
    destruct (sendBlocked (st w)) eqn:Hb.
    { rewrite handleSend_blocked in Hsome by assumption. congruence. }
    destruct (sessionOpens env) eqn:Hs.
    + rewrite handleSend_suspends in * by assumption. simpl in *.
      inversion Hsome; subst f; clear Hsome. simpl.
      repeat split.
      exists (messages (st w) ++ [mkUserMessage env (st w)]).
      now rewrite <- app_assoc.
    + rewrite handleSend_fails in Hsome by assumption. simpl in Hsome.
      congruence.
  - intros c f w' Hf H. simpl in H. rewrite Hf in H.
    inversion H; subst w'; clear H. simpl.
    eexists. split; [reflexivity|]. simpl. repeat split.
    + apply reachable_consistent in Hr. unfold consistent in Hr.
      rewrite Hf in Hr. now apply mergeSources_extends.
    + now apply (updateById_In _ _ _ _ _ H).
    + now apply (updateById_In _ _ _ _ _ H).
Qed.

Lemma streaming_grows_monotonically_witness :
  let c := mkChunk (Some "Hel") None in
  exists f w' f',
    task streamingWorld = Some f /\
    step streamingWorld (StreamChunk c) = Some w' /\
    task w' = Some f' /\
    Frame.fullResponse f' = (Frame.fullResponse f ++ "Hel")%string.
Proof.
  intros c.
  assert (exists f, task streamingWorld = Some f) as [f Hf]
    by (eexists; reflexivity).
  destruct (proj2 (streaming_grows_monotonically streamingWorld
                     streamingWorld_reachable)
                  c f _ Hf eq_refl)
    as (f' & Ht & _ & Hfull & _).
  exists f. eexists. exists f'.
  split; [exact Hf|]. split; [reflexivity|]. split; [exact Ht | exact Hfull].
Defined.

(** ** C7 *)

(** C7. Update-by-id returns a list of the same length whose entry at each
    position is the old entry, rewritten only if its id is the target; ids
    stay where they were.  No event reorders the transcript: an event is
    [clearChat] (which replaces the transcript), or a chunk's update-by-id
    for the suspended activation, or it appends to the transcript. *)
Theorem update_by_id_is_pointwise
    (target fr : string) (srcs : list Source) (prev : list Message) :
  length (updateById target fr srcs prev) = length prev /\
  map id (updateById target fr srcs prev) = map id prev /\
  (forall i m, nth_error prev i = Some m ->
     nth_error (updateById target fr srcs prev) i
     = Some (if String.eqb (id m) target then withStreamed fr srcs m else m)) /\
  (forall i m, nth_error prev i = Some m -> id m <> target ->
     nth_error (updateById target fr srcs prev) i = Some m) /\
  (forall i, nth_error prev i = None ->
     nth_error (updateById target fr srcs prev) i = None) /\
  (forall w e w', step w e = Some w' ->
     (exists clk, e = ClearChat clk) \/
     (exists f fr srcs,
        task w = Some f /\
        messages (st w')
        = updateById (Frame.botMessageId f) fr srcs (messages (st w))) \/
     (exists added, messages (st w') = messages (st w) ++ added)).
Proof.
  split; [apply updateById_length|].
  split; [apply updateById_ids|].
  split; [intros i m; apply updateById_nth|].
  split.
  { intros i m Hm Hne. rewrite (updateById_nth _ _ _ _ _ _ Hm).
    apply String.eqb_neq in Hne. now rewrite Hne. }
  split.
  { intros i Hi. unfold updateById. now rewrite nth_error_map, Hi. }
  intros w e w' H.
  destruct e; try (left; eexists; reflexivity); right;
    try (right; exact (step_transcript _ _ _ H)).
  left. simpl in H. destruct (task w) as [f|] eqn:Hf; [|discriminate].
  inversion H; subst w'; clear H. simpl. eauto.
Qed.

Lemma update_by_id_is_pointwise_witness :
  nth_error (updateById "1700000000001" "Hel" []
                        (messages (st streamingWorld))) 0
  = nth_error (messages (st streamingWorld)) 0.
Proof.
  destruct (nth_error (messages (st streamingWorld)) 0) as [m|] eqn:Hm;
    [|discriminate].
  pose proof (proj1 (proj2 (proj2 (proj2
                (update_by_id_is_pointwise "1700000000001" "Hel" []
                   (messages (st streamingWorld))))))
              0%nat m Hm) as H.
  vm_compute in Hm. inversion Hm; subst m. apply H. discriminate.
Defined.

(** ** C8 *)

(** C8. The ids of the transcript are not always distinct.  The user
    message takes [Date.now()] as id on line 68 and the error message takes
    [Date.now()] as id on line 159; when the key is missing both lines run
    in one synchronous turn, and within one millisecond they read the same
    clock value.  (The placeholder, on line 104, takes [Date.now() + 1].) *)
Theorem missing_key_send_repeats_an_id :
  run (initialWorld 0) [SetInput "hi"; Send (envAt None sampleTime)]
  = Some missingKeyWorld /\
  reachable missingKeyWorld /\
  map id (messages (st missingKeyWorld))
  = ["1"; "1700000000000"; "1700000000000"] /\
  map role (messages (st missingKeyWorld)) = [bot; user; bot] /\
  ~ NoDup (map id (messages (st missingKeyWorld))).
Proof.
  split; [reflexivity|].
  split; [apply missingKeyWorld_reachable|].
  split; [reflexivity|].
  split; [reflexivity|].
  intros H. inversion H as [|? ? _ H1]; subst.
  inversion H1 as [|? ? Hin _]; subst. apply Hin. now left.
Qed.

(** ** C9 *)

(** C9. An accepted send with empty trimmed text and an image attached
    appends a user message whose content is "Analyze this image" and whose
    image is the attached one; when the session opens, the parts sent as
    the turn are that image's part followed by the text part with the same
    string (otherwise nothing is sent). *)
Theorem image_only_send (env : SendEnv) (w : World) (img : string) :
  isLoading (st w) = false ->
  JS.trim (input (st w)) = "" ->
  selectedImage (st w) = Some img ->
  JS.truthy img = true ->
  exists w' rest,
    let u := mkMessage (JS.toString (userIdNow env)) user "Analyze this image"
                       (userDate env) (Some img) None in
    step w (Send env) = Some w' /\
    messages (st w') = messages (st w) ++ u :: rest /\
    (sessionOpens env = true ->
       exists f, task w' = Some f /\
                 Frame.userMessage f = u /\
                 Frame.messageParts f
                 = [imagePart img; Api.textPart "Analyze this image"]) /\
    (sessionOpens env = false -> task w' = task w).
Proof.
  intros Hl Ht Hi Himg.
  assert (Hb : sendBlocked (st w) = false).
  { unfold sendBlocked. rewrite Hl, Ht, Hi. simpl. now rewrite Himg. }
  assert (Hu : mkUserMessage env (st w)
               = mkMessage (JS.toString (userIdNow env)) user
                           "Analyze this image" (userDate env) (Some img) None).
  { unfold mkUserMessage, JS.or_undefined. rewrite Ht, Hi. simpl.
    now rewrite Himg. }
  destruct (sessionOpens env) eqn:Hs.
  - exists (handleSend env w), [placeholder env]. simpl.
    rewrite (handleSend_suspends env w Hb Hs), Hu. simpl.
    split; [reflexivity|]. split; [reflexivity|].
    split; [|discriminate]. intros _. eexists. split; [reflexivity|].
    simpl. split; [reflexivity|].
    unfold buildMessageParts. simpl. now rewrite Himg.
  - exists (handleSend env w), [errorMessage (onError env)]. simpl.
    rewrite (handleSend_fails env w Hb Hs), Hu. simpl.
    split; [reflexivity|]. split; [reflexivity|].
    split; [discriminate | reflexivity].
Qed.

Lemma image_only_send_witness :
  exists w' rest,
    step pictureWorld (Send (envAt (Some "key") sampleTime)) = Some w' /\
    messages (st w')
    = messages (st pictureWorld)
      ++ mkMessage "1700000000000" user "Analyze this image" sampleTime
                   (Some (dataURL "image/png" "iVBORw0KGgo=")) None :: rest.
Proof.
  destruct (image_only_send (envAt (Some "key") sampleTime) pictureWorld
              (dataURL "image/png" "iVBORw0KGgo=")
              eq_refl eq_refl eq_refl eq_refl)
    as (w' & rest & Hstep & Hmsgs & _).
  exists w', rest. split; [exact Hstep | exact Hmsgs].
Defined.

(** ** C10 *)

(** C10. The transcript starts as the single greeting from the bot; an
    event either is [clearChat], which leaves exactly one message, or does
    not shorten the transcript; so every reachable transcript has a last
    message. *)
Theorem transcript_never_empty (w : World) :
  reachable w ->
  messages (st w) <> [] /\
  (exists m, nth_error (messages (st w))
                       (length (messages (st w)) - 1) = Some m) /\
  (forall t0, messages (st (initialWorld t0))
              = [mkMessage "1" bot greeting t0 None None]) /\
  (forall e w', step w e = Some w' ->
     match e with
     | ClearChat _ => length (messages (st w')) = 1%nat
     | _ => (length (messages (st w)) <= length (messages (st w')))%nat
     end).
Proof.
  intros Hr. pose proof (reachable_nonempty w Hr) as Hlen.
  split; [intros E; rewrite E in Hlen; simpl in Hlen; lia|].
  split.
  { destruct (nth_error (messages (st w)) (length (messages (st w)) - 1))
      as [m|] eqn:E; [now exists m|].
    apply nth_error_None in E. lia. }
  split; [reflexivity|].
  intros e w' H. apply step_transcript in H.
  destruct e; try (destruct H as (added & ->); rewrite length_app; lia).
  - now rewrite H.
  - destruct H as (t & fr & srcs & ->). rewrite updateById_length. lia.
Qed.

Lemma transcript_never_empty_witness :
  messages (st streamingWorld) <> [] /\
  exists m, nth_error (messages (st streamingWorld)) 2 = Some m.
Proof.
  destruct (transcript_never_empty streamingWorld streamingWorld_reachable)
    as (Hne & Hlast & _).
  split; [exact Hne | exact Hlast].
Defined.

(** * Further properties of the component *)

(** ** Where the messages of a transcript come from *)

Lemma updateById_roles target fr srcs prev :
  map role (updateById target fr srcs prev) = map role prev.
Proof.
  unfold updateById. rewrite map_map. apply map_ext.
  intros m. now destruct (String.eqb (id m) target).
Qed.

(** A message of the transcript after an event was there before, or is the
    user message of an accepted send, or is a new bot message without image
    and sources, or is an older message rewritten by a chunk. *)
Lemma step_message_origin w e w' m' :
  step w e = Some w' ->
  In m' (messages (st w')) ->
  In m' (messages (st w)) \/
  (exists env, sendBlocked (st w) = false /\ m' = mkUserMessage env (st w)) \/
  (role m' = bot /\ image m' = None /\ sources m' = None) \/
  (exists m f c,
     In m (messages (st w)) /\ task w = Some f /\
     m' = withStreamed (Frame.fullResponse f ++ JS.or_empty (text c))%string
                       (mergeSources (Frame.sources f) c) m).
Proof.
  intros H Hin. destruct e; simpl in H.
  - inversion H; subst; now left.
  - inversion H; subst; now left.
  - inversion H; subst; now left.
  - inversion H; subst; clear H. simpl in Hin.
    destruct Hin as [<-|[]]. right; right; left. repeat split.
  - inversion H; subst; clear H.
    destruct (sendBlocked (st w)) eqn:Hb.
    + rewrite handleSend_blocked in Hin by assumption. now left.
    + destruct (sessionOpens env) eqn:Hs.
      * rewrite handleSend_suspends in Hin by assumption. simpl in Hin.
        apply in_app_or in Hin as [Hin|[<-|[<-|[]]]].
        -- now left.
        -- right; left. now exists env.
        -- right; right; left. repeat split.
      * rewrite handleSend_fails in Hin by assumption. simpl in Hin.
        apply in_app_or in Hin as [Hin|[<-|[<-|[]]]].
        -- now left.
        -- right; left. now exists env.
        -- right; right; left. repeat split.
  - destruct (task w) as [f|] eqn:Hf; [|discriminate].
    inversion H; subst; clear H. simpl in Hin.
    unfold updateById in Hin. apply in_map_iff in Hin as (m & Hm & Hin).
    destruct (String.eqb (id m) (Frame.botMessageId f)).
    + right; right; right. exists m, f, c. repeat split; auto.
    + subst m'. now left.
  - destruct (task w); [|discriminate]. inversion H; subst; now left.
  - destruct (task w); [|discriminate]. inversion H; subst; clear H.
    simpl in Hin. apply in_app_or in Hin as [Hin|[<-|[]]]; [now left|].
    right; right; left. repeat split.
Qed.

(** How an event changes the list of roles. *)
Lemma step_roles w e w' :
  step w e = Some w' ->
  map role (messages (st w')) = [bot] \/
  exists added,
    map role (messages (st w')) = map role (messages (st w)) ++ added /\
    (added = [] \/ added = [bot] \/ added = [user; bot]).
Proof.
  intros H. destruct e; simpl in H.
  - inversion H; subst; right; exists []; rewrite app_nil_r; auto.
  - inversion H; subst; right; exists []; rewrite app_nil_r; auto.
  - inversion H; subst; right; exists []; rewrite app_nil_r; auto.
  - inversion H; subst; now left.
  - inversion H; subst; clear H. right.
    destruct (sendBlocked (st w)) eqn:Hb.
    + rewrite handleSend_blocked by assumption.
      exists []; rewrite app_nil_r; auto.
    + destruct (sessionOpens env) eqn:Hs.
      * rewrite handleSend_suspends by assumption. simpl.
        exists [user; bot]. rewrite map_app. auto.
      * rewrite handleSend_fails by assumption. simpl.
        exists [user; bot]. rewrite map_app. auto.
  - destruct (task w) as [f|]; [|discriminate].
    inversion H; subst; clear H. simpl. right. exists [].
    rewrite updateById_roles, app_nil_r. auto.
  - destruct (task w); [|discriminate]. inversion H; subst.
    right; exists []; rewrite app_nil_r; auto.
  - destruct (task w); [|discriminate]. inversion H; subst; clear H.
    simpl. right. exists [bot]. rewrite map_app. auto.
Qed.

Lemma answered_app rs : forall rs',
  answered rs = true -> answered rs' = true -> answered (rs ++ rs') = true.
Proof.
  induction rs as [|r rs IH]; intros rs' H H'; [assumption|].
  destruct r.
  - destruct rs as [|[|] rs]; try discriminate.
    change (answered ((bot :: rs) ++ rs') = true). apply IH; assumption.
  - simpl in *. now apply IH.
Qed.

Lemma answered_last rs : answered rs = true -> last rs bot = bot.
Proof.
  induction rs as [|r rs IH]; intros H; [reflexivity|].
  destruct r.
  - destruct rs as [|[|] rs]; try discriminate.
    change (last (bot :: rs) bot = bot). now apply IH.
  - destruct rs as [|r' rs]; [reflexivity|].
    change (last (r' :: rs) bot = bot). now apply IH.
Qed.

Lemma reachable_roles w :
  reachable w ->
  answered (map role (messages (st w))) = true /\
  exists rest, map role (messages (st w)) = bot :: rest.
Proof.
  induction 1 as [t0|w e w' _ [IHa [rest IHh]] H].
  - split; [reflexivity | now exists []].
  - destruct (step_roles _ _ _ H) as [E|(added & E & Hadd)]; rewrite E.
    + split; [reflexivity | now exists []].
    + split.
      * apply answered_app; [assumption|].
        destruct Hadd as [->|[->| ->]]; reflexivity.
      * rewrite IHh. now exists (rest ++ added).
Qed.

(** ** X1 *)

(** X1. In every reachable state the loading flag is set exactly when an
    activation of [handleSend] is suspended on the stream, so an accepted
    send never finds another one in flight. *)
Theorem loading_iff_suspended (w : World) :
  reachable w ->
  (isLoading (st w) = true <-> exists f, task w = Some f) /\
  (sendBlocked (st w) = false -> task w = None).
Proof.
  intros Hr. pose proof (reachable_consistent w Hr) as Hc.
  unfold consistent in Hc. split.
  - destruct (task w) as [f|].
    + destruct Hc as [Hl _]. split; [now exists f | intros _; exact Hl].
    + rewrite Hc. split; [discriminate | intros [f Hf]; discriminate].
  - intros Hb. apply reachable_idle; [assumption|].
    now apply sendBlocked_false in Hb as [Hl _].
Qed.

Lemma loading_iff_suspended_witness :
  isLoading (st streamingWorld) = true <-> exists f, task streamingWorld = Some f.
Proof.
  exact (proj1 (loading_iff_suspended streamingWorld streamingWorld_reachable)).
Defined.

(** ** X2 *)

(** X2. In every reachable transcript a message's [sources], when defined,
    is a non-empty list without repeated uris: the render's test of line 249
    succeeds exactly for the messages whose [sources] is defined. *)
Theorem stored_sources_nonempty_unique (w : World) :
  reachable w ->
  forall m, In m (messages (st w)) ->
    (forall l, sources m = Some l -> l <> [] /\ NoDup (map uri l)) /\
    (sourcesVisible m = true <-> sources m <> None).
Proof.
  intros Hr.
  assert (Hinv : forall m l, In m (messages (st w)) -> sources m = Some l ->
                   l <> [] /\ NoDup (map uri l)).
  { induction Hr as [t0|w e w' Hr IH H]; intros m' l Hin Hs.
    - simpl in Hin. destruct Hin as [<-|[]]. discriminate.
    - destruct (step_message_origin _ _ _ _ H Hin)
        as [Hold|[(env & _ & ->)|[(_ & _ & Hn)|(m & f & c & Hm & Hf & ->)]]].
      + now apply (IH m').
      + discriminate.
      + congruence.
      + simpl in Hs.
        pose proof (reachable_consistent w Hr) as Hc. unfold consistent in Hc.
        rewrite Hf in Hc. destruct Hc as [_ Hnd].
        pose proof (mergeSources_NoDup _ c Hnd) as Hnd'.
        destruct (mergeSources (Frame.sources f) c) eqn:E; [discriminate|].
        inversion Hs; subst l. split; [discriminate | assumption]. }
  intros m Hin. split; [intros l; now apply Hinv|].
  unfold sourcesVisible. destruct (sources m) as [l|] eqn:E.
  - destruct (Hinv m l Hin E) as [Hne _].
    destruct l; [contradiction|]. simpl. split; [discriminate | reflexivity].
  - split; [discriminate | congruence].
Qed.

Lemma citedWorld_reachable : reachable citedWorld.
Proof.
  apply (run_reachable [StreamChunk (webChunk "https://a.example" "A")]
                       streamingWorld);
    [apply streamingWorld_reachable | reflexivity].
Qed.

Lemma stored_sources_nonempty_unique_witness :
  let m := mkMessage "1700000000001" bot "" sampleTime None
                     (Some [mkSource "https://a.example" "A"]) in
  In m (messages (st citedWorld)) /\ sourcesVisible m = true.
Proof.
  intros m.
  assert (Hin : In m (messages (st citedWorld)))
    by (right; right; left; reflexivity).
  split; [exact Hin|].
  apply (proj2 (stored_sources_nonempty_unique citedWorld citedWorld_reachable
                  m Hin)).
  discriminate.
Defined.

(** ** X3 *)

(** X3. In every reachable transcript only user messages carry an image,
    and an image that is present is never the empty string. *)
Theorem images_only_on_user_messages (w : World) :
  reachable w ->
  forall m, In m (messages (st w)) ->
    (role m = bot -> image m = None) /\ image m <> Some "".
Proof.
  induction 1 as [t0|w e w' Hr IH H]; intros m' Hin.
  - simpl in Hin. destruct Hin as [<-|[]]. split; [reflexivity | discriminate].
  - destruct (step_message_origin _ _ _ _ H Hin)
      as [Hold|[(env & _ & ->)|[(_ & Hi & _)|(m & f & c & Hm & Hf & ->)]]].
    + now apply IH.
    + split; [discriminate|]. simpl. unfold JS.or_undefined.
      destruct (selectedImage (st w)) as [s|]; simpl; [|discriminate].
      destruct (JS.truthy s) eqn:E; [|discriminate].
      intros [= ->]. discriminate.
    + rewrite Hi. split; [reflexivity | discriminate].
    + simpl. now apply IH.
Qed.

Lemma images_only_on_user_messages_witness :
  let m := mkMessage "1" bot greeting 0 None None in
  (role m = bot -> image m = None) /\ image m <> Some "".
Proof.
  intros m.
  exact (images_only_on_user_messages (initialWorld 0) (reachable_init 0)
           m (or_introl eq_refl)).
Defined.

(** ** X4 *)

(** X4. Every reachable transcript begins and ends with a bot message and
    every user message in it is directly followed by a bot message; the
    history serialized from it therefore opens with a "model" turn. *)
Theorem transcript_roles (w : World) :
  reachable w ->
  answered (map role (messages (st w))) = true /\
  (exists rest, map role (messages (st w)) = bot :: rest) /\
  last (map role (messages (st w))) bot = bot /\
  (exists c rest, serializeHistory (messages (st w)) = c :: rest /\
                  Api.role c = "model").
Proof.
  intros Hr. destruct (reachable_roles w Hr) as [Ha [rest Hh]].
  split; [assumption|]. split; [now exists rest|].
  split; [now apply answered_last|].
  destruct (messages (st w)) as [|m ms]; [discriminate|].
  simpl in Hh. inversion Hh as [[Hm Hrest]].
  exists (toContent m), (serializeHistory ms). split; [reflexivity|].
  simpl. now rewrite Hm.
Qed.

Lemma transcript_roles_witness :
  last (map role (messages (st streamingWorld))) bot = bot.
Proof.
  exact (proj1 (proj2 (proj2 (transcript_roles streamingWorld
                                streamingWorld_reachable)))).
Defined.

(** ** A whole turn *)

Lemma run_app a : forall w b,
  run w (a ++ b) = match run w a with
                   | Some w1 => run w1 b
                   | None => None
                   end.
Proof.
  induction a as [|e a IH]; intros w b; simpl; [reflexivity|].
  destruct (step w e); [apply IH | reflexivity].
Qed.

Lemma updateById_miss target fr srcs prev :
  (forall m, In m prev -> id m <> target) ->
  updateById target fr srcs prev = prev.
Proof.
  intros H. unfold updateById. rewrite <- (map_id prev) at 2.
  apply map_ext_in. intros m Hm. apply H in Hm.
  apply String.eqb_neq in Hm. now rewrite Hm.
Qed.

Lemma updateById_last target fr srcs pre p :
  (forall m, In m pre -> id m <> target) ->
  id p = target ->
  updateById target fr srcs (pre ++ [p]) = pre ++ [withStreamed fr srcs p].
Proof.
  intros Hpre Hp. unfold updateById at 1. rewrite map_app.
  fold (updateById target fr srcs pre). rewrite updateById_miss by assumption.
  simpl. apply String.eqb_eq in Hp. now rewrite Hp.
Qed.

(** The loop over [cs], when the activation's message is the last of the
    transcript and the only one with its id. *)
Lemma chunks_onto_placeholder cs : forall w f pre p,
  task w = Some f ->
  messages (st w)
  = pre ++ [withStreamed (Frame.fullResponse f) (Frame.sources f) p] ->
  id p = Frame.botMessageId f ->
  (forall m, In m pre -> id m <> Frame.botMessageId f) ->
  run w (map StreamChunk cs)
  = Some (mkWorld
            (mkState
               (pre ++ [withStreamed
                          (accumulate (Frame.fullResponse f) cs)
                          (fold_left mergeSources cs (Frame.sources f)) p])
               (input (st w)) (isLoading (st w)) (selectedImage (st w)))
            (Some (Frame.mk (Frame.userMessage f) (Frame.history f)
                            (Frame.botMessageId f) (Frame.messageParts f)
                            (accumulate (Frame.fullResponse f) cs)
                            (fold_left mergeSources cs (Frame.sources f))))).
Proof.
  induction cs as [|c cs IH]; intros w f pre p Hf Hm Hp Hpre.
  - simpl. destruct w as [s t]. destruct s. destruct f.
    simpl in *. now subst.
  - simpl. rewrite Hf. unfold onChunk, setMessages. rewrite Hm.
    rewrite updateById_last; [|assumption|exact Hp].
    match goal with
    | |- run (mkWorld ?s1 (Some ?f1)) _ = _ =>
        rewrite (IH (mkWorld s1 (Some f1)) f1 pre p eq_refl eq_refl Hp Hpre)
    end.
    reflexivity.
Qed.

(** The loop over [cs] when no message carries the activation's id. *)
Lemma chunks_miss cs : forall w f,
  task w = Some f ->
  (forall m, In m (messages (st w)) -> id m <> Frame.botMessageId f) ->
  exists f', run w (map StreamChunk cs) = Some (mkWorld (st w) (Some f')) /\
             Frame.botMessageId f' = Frame.botMessageId f.
Proof.
  induction cs as [|c cs IH]; intros w f Hf Hmiss.
  - exists f. simpl. destruct w; simpl in *. now subst.
  - simpl. rewrite Hf. unfold onChunk, setMessages.
    rewrite updateById_miss by assumption.
    match goal with |- context [Some ?f1] =>
      match f1 with Frame.mk _ _ _ _ _ _ =>
        destruct (IH (mkWorld (st w) (Some f1)) f1 eq_refl Hmiss)
          as (f' & Hrun & Hid)
      end
    end.
    exists f'. split; [|exact Hid].
    destruct (st w) eqn:Es. simpl in *. rewrite <- Hrun. reflexivity.
Qed.

(** The state in which an accepted send that opens the session leaves the
    component, then the one after the chunks [cs]. *)
Lemma send_then_chunks env w cs :
  sendBlocked (st w) = false ->
  sessionOpens env = true ->
  ~ In (JS.toString (botIdNow env + 1)) (map id (messages (st w))) ->
  JS.toString (userIdNow env) <> JS.toString (botIdNow env + 1) ->
  run w (Send env :: map StreamChunk cs)
  = Some (mkWorld
            (mkState
               (messages (st w)
                ++ [mkUserMessage env (st w);
                    mkMessage (JS.toString (botIdNow env + 1)) bot
                              (accumulate "" cs) (botDate env) None
                              (writtenSources (mergeAll cs))])
               "" true None)
            (Some (Frame.mk (mkUserMessage env (st w))
                            (serializeHistory (messages (st w)))
                            (JS.toString (botIdNow env + 1))
                            (buildMessageParts (mkUserMessage env (st w)))
                            (accumulate "" cs) (mergeAll cs)))).
Proof.
  intros Hb Hs Hfresh Hne.
  change (run w (Send env :: map StreamChunk cs))
    with (run (handleSend env w) (map StreamChunk cs)).
  rewrite (handleSend_suspends env w Hb Hs).
  match goal with
  | |- run (mkWorld ?s1 (Some ?f1)) _ = _ =>
      rewrite (chunks_onto_placeholder cs (mkWorld s1 (Some f1)) f1
                 (messages (st w) ++ [mkUserMessage env (st w)])
                 (placeholder env) eq_refl)
  end.
  - simpl. rewrite <- app_assoc. reflexivity.
  - simpl. rewrite <- app_assoc. reflexivity.
  - reflexivity.
  - intros m Hin. simpl. apply in_app_or in Hin as [Hin|[<-|[]]].
    + intros E. apply Hfresh. rewrite <- E. now apply in_map.
    + exact Hne.
Qed.

Lemma nth_error_snoc {A} (l : list A) (x : A) :
  nth_error (l ++ [x]) (length (l ++ [x]) - 1) = Some x.
Proof.
  rewrite length_app. simpl.
  replace (length l + 1 - 1)%nat with (length l) by lia.
  rewrite nth_error_app2 by lia. now rewrite Nat.sub_diag.
Qed.

(** ** X5 *)

(** X5. Every accepted send appends, in the same synchronous run, the user
    message followed by one bot message without image or sources (the empty
    placeholder when the session opens, the error message otherwise), and
    empties the pending input and the pending image; the loading flag is
    left set exactly when the session opened. *)
Theorem accepted_send_appends_two (env : SendEnv) (w : World) :
  sendBlocked (st w) = false ->
  exists second,
    st (handleSend env w)
    = mkState (messages (st w) ++ [mkUserMessage env (st w); second])
              "" (sessionOpens env) None /\
    role second = bot /\ image second = None /\ sources second = None /\
    content second = (if sessionOpens env then "" else errorText) /\
    step w (Send env) = Some (handleSend env w).
Proof.
  intros Hb. destruct (sessionOpens env) eqn:Hs.
  - exists (placeholder env).
    split; [now rewrite (handleSend_suspends env w Hb Hs)|]. repeat split.
  - exists (errorMessage (onError env)).
    split; [now rewrite (handleSend_fails env w Hb Hs)|]. repeat split.
Qed.

Lemma accepted_send_appends_two_witness :
  exists second,
    st (handleSend (envAt None sampleTime) pictureWorld)
    = mkState (messages (st pictureWorld)
               ++ [mkUserMessage (envAt None sampleTime) (st pictureWorld);
                   second])
              "" false None /\
    content second = errorText.
Proof.
  destruct (accepted_send_appends_two (envAt None sampleTime) pictureWorld
              eq_refl) as (second & Hst & _ & _ & _ & Hc & _).
  exists second. split; [exact Hst | exact Hc].
Defined.

(** ** X6 *)

(** X6. A whole successful turn.  When a send is accepted, the session
    opens, and the placeholder's id is carried by no earlier message nor by
    the user message, then after the chunks [cs] and the end of the stream
    the transcript is the old one followed by the user message and one bot
    message whose content is the concatenation of the chunks' texts and
    whose sources are the merged citations (undefined if there are none);
    the component is idle again. *)
Theorem successful_turn (env : SendEnv) (w : World) (cs : list Chunk) :
  sendBlocked (st w) = false ->
  sessionOpens env = true ->
  ~ In (JS.toString (botIdNow env + 1)) (map id (messages (st w))) ->
  JS.toString (userIdNow env) <> JS.toString (botIdNow env + 1) ->
  run w (Send env :: map StreamChunk cs ++ [StreamDone])
  = Some (mkWorld
            (mkState
               (messages (st w)
                ++ [mkUserMessage env (st w);
                    mkMessage (JS.toString (botIdNow env + 1)) bot
                              (accumulate "" cs) (botDate env) None
                              (writtenSources (mergeAll cs))])
               "" false None)
            None).
Proof.
  intros Hb Hs Hfresh Hne.
  rewrite app_comm_cons, run_app.
  rewrite (send_then_chunks env w cs Hb Hs Hfresh Hne). reflexivity.
Qed.

Lemma successful_turn_witness :
  run pictureWorld
      (Send (envAt (Some "key") sampleTime)
         :: map StreamChunk [mkChunk (Some "Hi") None] ++ [StreamDone])
  = Some (mkWorld
            (mkState
               (messages (st pictureWorld)
                ++ [mkUserMessage (envAt (Some "key") sampleTime)
                                  (st pictureWorld);
                    mkMessage "1700000000001" bot "Hi" sampleTime None None])
               "" false None)
            None).
Proof.
  apply (successful_turn (envAt (Some "key") sampleTime) pictureWorld
           [mkChunk (Some "Hi") None]).
  - reflexivity.
  - reflexivity.
  - simpl. intros [H|[]]. discriminate H.
  - discriminate.
Defined.

(** ** X7 *)

(** X7. A stream that fails after the chunks [cs], under the same
    conditions: the text and sources received so far stay on the
    placeholder's message, the error message is appended after it as a
    separate message, and the component is idle again. *)
Theorem failed_stream_keeps_partial_reply
    (env : SendEnv) (w : World) (cs : list Chunk) (clk : CatchClock) :
  sendBlocked (st w) = false ->
  sessionOpens env = true ->
  ~ In (JS.toString (botIdNow env + 1)) (map id (messages (st w))) ->
  JS.toString (userIdNow env) <> JS.toString (botIdNow env + 1) ->
  run w (Send env :: map StreamChunk cs ++ [StreamError clk])
  = Some (mkWorld
            (mkState
               (messages (st w)
                ++ [mkUserMessage env (st w);
                    mkMessage (JS.toString (botIdNow env + 1)) bot
                              (accumulate "" cs) (botDate env) None
                              (writtenSources (mergeAll cs));
                    errorMessage clk])
               "" false None)
            None).
Proof.
  intros Hb Hs Hfresh Hne.
  rewrite app_comm_cons, run_app.
  rewrite (send_then_chunks env w cs Hb Hs Hfresh Hne). simpl.
  unfold finallyBlock, catchBlock, setIsLoading, setMessages. simpl.
  now rewrite <- app_assoc.
Qed.

Lemma failed_stream_keeps_partial_reply_witness :
  let clk := mkCatchClock (sampleTime + 40) (sampleTime + 40) in
  run pictureWorld
      (Send (envAt (Some "key") sampleTime)
         :: map StreamChunk [mkChunk (Some "Hi") None] ++ [StreamError clk])
  = Some (mkWorld
            (mkState
               (messages (st pictureWorld)
                ++ [mkUserMessage (envAt (Some "key") sampleTime)
                                  (st pictureWorld);
                    mkMessage "1700000000001" bot "Hi" sampleTime None None;
                    errorMessage clk])
               "" false None)
            None).
Proof.
  intros clk.
  apply (failed_stream_keeps_partial_reply
           (envAt (Some "key") sampleTime) pictureWorld
           [mkChunk (Some "Hi") None] clk).
  - reflexivity.
  - reflexivity.
  - simpl. intros [H|[]]. discriminate H.
  - discriminate.
Defined.

(** ** X8 *)

(** X8. [clearChat] does not cancel a send in flight.  If the id of the
    fresh message differs from the placeholder's, the chunks that arrive
    afterwards change nothing: the transcript stays the single fresh
    message, the loading flag keeps its value until the stream ends, and the
    reply being streamed is lost. *)
Theorem clear_during_stream
    (w : World) (f : Frame.t) (clk : ClearClock) (cs : list Chunk) :
  task w = Some f ->
  JS.toString (clearIdNow clk) <> Frame.botMessageId f ->
  let fresh := mkMessage (JS.toString (clearIdNow clk)) bot clearedText
                         (clearDate clk) None None in
  (exists f',
     run w (ClearChat clk :: map StreamChunk cs)
     = Some (mkWorld (mkState [fresh] (input (st w)) (isLoading (st w))
                              (selectedImage (st w)))
                     (Some f'))) /\
  run w (ClearChat clk :: map StreamChunk cs ++ [StreamDone])
  = Some (mkWorld (mkState [fresh] (input (st w)) false (selectedImage (st w)))
                  None).
Proof.
  intros Hf Hne fresh.
  destruct (chunks_miss cs (mkWorld (clearChat clk (st w)) (Some f)) f eq_refl)
    as (f' & Hrun & _).
  { simpl. intros m [<-|[]]. exact Hne. }
  assert (Hstart : forall es, run w (ClearChat clk :: es)
                    = run (mkWorld (clearChat clk (st w)) (Some f)) es).
  { intros es. simpl. now rewrite Hf. }
  split.
  - exists f'. rewrite Hstart, Hrun. reflexivity.
  - rewrite app_comm_cons, run_app, Hstart, Hrun. reflexivity.
Qed.

Lemma clear_during_stream_witness :
  let clk := mkClearClock (sampleTime + 500) (sampleTime + 500) in
  run streamingWorld
      (ClearChat clk :: map StreamChunk [mkChunk (Some "Hi") None]
         ++ [StreamDone])
  = Some (mkWorld
            (mkState [mkMessage "1700000000500" bot clearedText
                                (sampleTime + 500) None None]
                     "" false None)
            None).
Proof.
  intros clk.
  assert (exists f, task streamingWorld = Some f) as [f Hf]
    by (eexists; reflexivity).
  refine (proj2 (clear_during_stream streamingWorld f clk
                   [mkChunk (Some "Hi") None] Hf _)).
  vm_compute in Hf. inversion Hf; subst f. discriminate.
Defined.

(** ** X9 *)

(** X9. The render's test for the "Thinking..." row never reads past an
    empty transcript in a reachable state; and during a turn whose
    placeholder id is fresh, the row is shown exactly as long as the text
    accumulated from the chunks is empty. *)
Theorem thinking_indicator (w : World) :
  reachable w ->
  (exists b, thinkingVisible (st w) = Some b) /\
  (forall env cs w',
     sendBlocked (st w) = false ->
     sessionOpens env = true ->
     ~ In (JS.toString (botIdNow env + 1)) (map id (messages (st w))) ->
     JS.toString (userIdNow env) <> JS.toString (botIdNow env + 1) ->
     run w (Send env :: map StreamChunk cs) = Some w' ->
     thinkingVisible (st w') = Some (String.eqb (accumulate "" cs) "")).
Proof.
  intros Hr. split.
  - unfold thinkingVisible. destruct (isLoading (st w)); [|now exists false].
    pose proof (reachable_nonempty w Hr) as Hlen.
    destruct (nth_error (messages (st w)) (length (messages (st w)) - 1))
      as [m|] eqn:E; [eexists; reflexivity|].
    apply nth_error_None in E. lia.
  - intros env cs w' Hb Hs Hfresh Hne Hrun.
    rewrite (send_then_chunks env w cs Hb Hs Hfresh Hne) in Hrun.
    inversion Hrun; subst w'; clear Hrun. unfold thinkingVisible. simpl.
    change (messages (st w) ++ [?a; ?b])
      with (messages (st w) ++ [a] ++ [b]).
    rewrite app_assoc, nth_error_snoc. reflexivity.
Qed.

Lemma thinking_indicator_witness :
  thinkingVisible (st streamingWorld) = Some true.
Proof.
  destruct (thinking_indicator streamingWorld streamingWorld_reachable)
    as [[b Hb] _].
  rewrite Hb. vm_compute in Hb. symmetry. exact Hb.
Defined.

(** ** X10 *)


(** ** More on the citation merge *)

Lemma firstOccurrences_all_seen seen l :
  (forall s, In s l -> In (uri s) seen) -> firstOccurrences seen l = [].
Proof.
  induction l as [|v r IH]; intros H; simpl; [reflexivity|].
  assert (E : mem (uri v) seen = true) by (apply mem_In, H; now left).
  rewrite E. apply IH. intros s Hs. apply H. now right.
Qed.

Lemma firstOccurrences_length seen l :
  (length (firstOccurrences seen l) <= length l)%nat.
Proof.
  revert seen; induction l as [|v r IH]; intros seen; simpl; [lia|].
  destruct (mem (uri v) seen).
  - specialize (IH seen). lia.
  - specialize (IH (uri v :: seen)). simpl. lia.
Qed.

Lemma mergeSources_firstOccurrences srcs c :
  NoDup (map uri srcs) ->
  mergeSources srcs c
  = srcs ++ firstOccurrences (map uri srcs) (extracted c).
Proof.
  intros H. unfold mergeSources, extracted.
  destruct (groundingChunksOf c) as [gcs|].
  - now apply uniqueByUri_extends.
  - simpl. now rewrite app_nil_r.
Qed.

(** ** X11 *)

(** X11. Merging a chunk into a source list without repeated uris adds
    exactly the uris the chunk reports and the list does not have yet: a
    chunk that reports only known uris leaves the list as it is, and merging
    the same chunk a second time changes nothing. *)
Theorem merge_adds_only_new_uris (srcs : list Source) (c : Chunk) :
  NoDup (map uri srcs) ->
  (forall u, In u (map uri (mergeSources srcs c)) <->
             In u (map uri srcs) \/ In u (map uri (extracted c))) /\
  ((forall s, In s (extracted c) -> In (uri s) (map uri srcs)) ->
   mergeSources srcs c = srcs) /\
  mergeSources (mergeSources srcs c) c = mergeSources srcs c.
Proof.
  intros Hnd.
  assert (Huris : forall u, In u (map uri (mergeSources srcs c)) <->
                    In u (map uri srcs) \/ In u (map uri (extracted c))).
  { intros u. rewrite (mergeSources_firstOccurrences _ _ Hnd), map_app,
      in_app_iff, firstOccurrences_uris.
    destruct (in_dec string_dec u (map uri srcs)); tauto. }
  assert (Hknown : forall l, NoDup (map uri l) ->
            (forall s, In s (extracted c) -> In (uri s) (map uri l)) ->
            mergeSources l c = l).
  { intros l Hl H. rewrite (mergeSources_firstOccurrences _ _ Hl).
    rewrite firstOccurrences_all_seen by assumption. apply app_nil_r. }
  split; [exact Huris|]. split; [now apply Hknown|].
  apply Hknown; [now apply mergeSources_NoDup|].
  intros s Hs. apply Huris. right. now apply in_map.
Qed.

Lemma merge_adds_only_new_uris_witness :
  mergeSources [mkSource "https://a.example" "A"]
               (webChunk "https://a.example" "A again")
  = [mkSource "https://a.example" "A"].
Proof.
  apply (proj1 (proj2 (merge_adds_only_new_uris
                         [mkSource "https://a.example" "A"]
                         (webChunk "https://a.example" "A again")
                         ltac:(repeat constructor; simpl; tauto)))).
  intros s [<-|[]]. simpl. now left.
Defined.

(** ** X12 *)

(** X12. The merged list is empty exactly when no chunk has reported a web
    source, so [sources] is written as [undefined] exactly in that case; and
    the merged list is never longer than the list of reported records. *)
Theorem merged_sources_empty_iff (cs : list Chunk) :
  (mergeAll cs = [] <-> flat_map extracted cs = []) /\
  (writtenSources (mergeAll cs) = None <-> flat_map extracted cs = []) /\
  (length (mergeAll cs) <= length (flat_map extracted cs))%nat.
Proof.
  rewrite mergeAll_firstOccurrences.
  assert (H : firstOccurrences [] (flat_map extracted cs) = [] <->
              flat_map extracted cs = []).
  { split.
    - intros E. destruct (flat_map extracted cs) as [|v r] eqn:Ea;
        [reflexivity|].
      simpl in E. discriminate.
    - intros ->. reflexivity. }
  split; [exact H|]. split; [|apply firstOccurrences_length].
  rewrite <- H. unfold writtenSources.
  destruct (firstOccurrences [] (flat_map extracted cs));
    split; congruence.
Qed.

(** ** Trimming *)


Lemma trimStart_head s c r :
  JS.trimStart s = String c r -> JS.isWhiteSpace c = false.
Proof.
  induction s as [|c' r' IH]; simpl; [discriminate|].
  destruct (JS.isWhiteSpace c') eqn:E; [exact IH|].
  intros [= <- _]. exact E.
Qed.

Lemma trimEnd_head c r :
  JS.isWhiteSpace c = false ->
  JS.trimEnd (String c r) = String c (JS.trimEnd r).
Proof. intros H. simpl. now rewrite H. Qed.

Lemma trimEnd_idem s : JS.trimEnd (JS.trimEnd s) = JS.trimEnd s.
Proof.
  induction s as [|c r IH]; simpl; [reflexivity|].
  destruct (JS.isWhiteSpace c && String.eqb (JS.trimEnd r) "") eqn:E;
    [reflexivity|].
  simpl. now rewrite IH, E.
Qed.


Lemma trim_idem s : JS.trim (JS.trim s) = JS.trim s.
Proof.
  unfold JS.trim. destruct (JS.trimStart s) as [|c r] eqn:E; [reflexivity|].
  pose proof (trimStart_head s c r E) as Hc.
  rewrite (trimEnd_head c r Hc). simpl JS.trimStart. rewrite Hc.
  rewrite (trimEnd_head _ _ Hc). now rewrite trimEnd_idem.
Qed.

(** ** X13 *)



(** ** X14 *)

(** X14. The content of the user message built by a send is already
    trimmed, whatever the input and the image: trimming it again gives the
    same string. *)
Theorem user_content_is_trimmed (env : SendEnv) (s : State) :
  JS.trim (content (mkUserMessage env s)) = content (mkUserMessage env s).
Proof.
  simpl. unfold JS.or_str.
  destruct (JS.truthy (JS.trim (input s))); [apply trim_idem|].
  destruct (JS.truthy_opt (selectedImage s)); reflexivity.
Qed.

(** ** X15 *)

(** X15. The data of an image part is the text between the first and the
    second comma of the image string: it is undefined when the string has
    no comma, it is all that follows the comma when there is exactly one,
    and anything from a second comma on is dropped. *)
Theorem image_part_data (a : string) :
  noComma a = true ->
  imagePart a = Api.inlineData None "image/jpeg" /\
  (forall b, noComma b = true ->
     imagePart (a ++ String "," b) = Api.inlineData (Some b) "image/jpeg" /\
     forall c,
       imagePart (a ++ String "," (b ++ String "," c))
       = Api.inlineData (Some b) "image/jpeg").
Proof.
  intros Ha. unfold imagePart. split.
  - now rewrite (split_noComma a Ha).
  - intros b Hb. split.
    + now rewrite (split_at_comma a b Ha), (split_noComma b Hb).
    + intros c. now rewrite (split_at_comma a _ Ha), (split_at_comma b c Hb).
Qed.

Lemma image_part_data_witness :
  imagePart "data:image/png;base64,AAAA,BBBB"
  = Api.inlineData (Some "AAAA") "image/jpeg".
Proof.
  exact (proj2 (proj2 (image_part_data "data:image/png;base64" eq_refl)
                  "AAAA" eq_refl) "BBBB").
Defined.

(** ** Ids and the clock *)

Lemma toString_inj n m : JS.toString n = JS.toString m -> n = m.
Proof.
  unfold JS.toString. intros H.
  assert (Hok : forall z, Z.to_int z <> Decimal.Pos Decimal.Nil /\
                          Z.to_int z <> Decimal.Neg Decimal.Nil).
  { intros [|p|p]; simpl; split; try discriminate;
      intros [= E]; now apply (DecimalPos.Unsigned.to_uint_nonnil p). }
  apply DecimalZ.to_int_inj.
  assert (E : Some (Z.to_int n) = Some (Z.to_int m)).
  { rewrite <- (NilZero.isi (Z.to_int n)) by apply Hok.
    rewrite <- (NilZero.isi (Z.to_int m)) by apply Hok.
    now rewrite H. }
  now inversion E.
Qed.

Lemma NoDup_snoc {A} (l : list A) (a : A) :
  NoDup l -> ~ In a l -> NoDup (l ++ [a]).
Proof.
  induction l as [|x l IH]; intros Hnd Hn; simpl.
  - constructor; [intros [] | constructor].
  - inversion Hnd as [|? ? Hx Hl]; subst. constructor.
    + rewrite in_app_iff. simpl. intros [H|[H|[]]]; [contradiction|].
      apply Hn. now left.
    + apply IH; [assumption|]. intros H. apply Hn. now right.
Qed.

Lemma idsBelow_mono hw hw' msgs :
  hw <= hw' -> idsBelow hw msgs -> idsBelow hw' msgs.
Proof.
  intros Hle [Hnd Hb]. split; [assumption|].
  intros m Hm. destruct (Hb m Hm) as (n & Hid & Hn). exists n. split; [|lia].
  assumption.
Qed.

Lemma idsBelow_snoc hw msgs m n :
  idsBelow hw msgs -> id m = JS.toString n -> hw < n ->
  idsBelow n (msgs ++ [m]).
Proof.
  intros [Hnd Hb] Hid Hlt. split.
  - rewrite map_app. simpl. apply NoDup_snoc; [assumption|].
    rewrite in_map_iff. intros (m0 & E & Hin).
    destruct (Hb m0 Hin) as (n0 & Hid0 & Hn0).
    rewrite Hid, Hid0 in E. apply toString_inj in E. lia.
  - intros m0 Hin. apply in_app_or in Hin as [Hin|[<-|[]]].
    + destruct (Hb m0 Hin) as (n0 & Hid0 & Hn0). exists n0. split; [|lia].
      assumption.
    + exists n. split; [assumption | lia].
Qed.

Lemma step_idsBelow w e w' hw es :
  idsBelow hw (messages (st w)) ->
  step w e = Some w' ->
  clockTicks hw (e :: es) = true ->
  exists hw', idsBelow hw' (messages (st w')) /\ clockTicks hw' es = true.
Proof.
  intros Hinv H Hck. destruct e; simpl in H, Hck.
  - inversion H; subst. now exists hw.
  - inversion H; subst. now exists hw.
  - inversion H; subst. now exists hw.
  - inversion H; subst; clear H. apply andb_true_iff in Hck as [_ Hck].
    exists (clearIdNow clk). split; [|assumption]. simpl. split.
    + simpl. constructor; [intros [] | constructor].
    + intros m [<-|[]]. exists (clearIdNow clk). split; [reflexivity | lia].
  - inversion H; subst; clear H.
    apply andb_true_iff in Hck as [Hck Hrest].
    apply andb_true_iff in Hck as [Hck Herr].
    apply andb_true_iff in Hck as [Hu Hbot].
    apply Z.ltb_lt in Hu, Herr. apply Z.leb_le in Hbot.
    exists (Z.max (botIdNow env + 1) (errorIdNow (onError env))).
    split; [|assumption].
    destruct (sendBlocked (st w)) eqn:Hb.
    + rewrite handleSend_blocked by assumption.
      apply (idsBelow_mono hw); [lia | assumption].
    + pose proof (idsBelow_snoc hw _ (mkUserMessage env (st w))
                    (userIdNow env) Hinv eq_refl Hu) as Huser.
      destruct (sessionOpens env) eqn:Hs.
      * rewrite handleSend_suspends by assumption. simpl.
        apply (idsBelow_mono (botIdNow env + 1)); [lia|].
        change (messages (st w) ++ [?a; ?b])
          with (messages (st w) ++ [a] ++ [b]).
        rewrite app_assoc. apply (idsBelow_snoc (userIdNow env));
          [assumption | reflexivity | lia].
      * rewrite handleSend_fails by assumption. simpl.
        apply (idsBelow_mono (errorIdNow (onError env))); [lia|].
        change (messages (st w) ++ [?a; ?b])
          with (messages (st w) ++ [a] ++ [b]).
        rewrite app_assoc. apply (idsBelow_snoc (userIdNow env));
          [assumption | reflexivity | lia].
  - destruct (task w) as [f|]; [|discriminate].
    inversion H; subst; clear H. exists hw. split; [|assumption].
    simpl. destruct Hinv as [Hnd Hb]. split.
    + now rewrite updateById_ids.
    + intros m' Hin. unfold updateById in Hin.
      apply in_map_iff in Hin as (m & <- & Hin).
      destruct (Hb m Hin) as (n & Hid & Hn). exists n. split; [|assumption].
      now destruct (String.eqb (id m) (Frame.botMessageId f)).
  - destruct (task w); [|discriminate]. inversion H; subst. now exists hw.
  - destruct (task w); [|discriminate]. inversion H; subst; clear H.
    apply andb_true_iff in Hck as [He Hrest]. apply Z.ltb_lt in He.
    exists (errorIdNow clk). split; [|assumption]. simpl.
    now apply (idsBelow_snoc hw).
Qed.

Lemma run_idsBelow es : forall w w' hw,
  idsBelow hw (messages (st w)) ->
  clockTicks hw es = true ->
  run w es = Some w' ->
  exists hw', idsBelow hw' (messages (st w')).
Proof.
  induction es as [|e es IH]; intros w w' hw Hinv Hck Hrun.
  - simpl in Hrun. inversion Hrun; subst. now exists hw.
  - simpl in Hrun. destruct (step w e) as [w1|] eqn:E; [|discriminate].
    destruct (step_idsBelow _ _ _ _ es Hinv E Hck) as (hw1 & Hinv1 & Hck1).
    now apply (IH w1 w' hw1).
Qed.

(** ** X16 *)

(** X16. If the clock has ticked between any two draws of an id (each
    [Date.now()] used for an id reads more than every number an id was made
    from before, and the bot's reading on line 104 is not behind the user's
    on line 68), then after any trace from the initial state no two
    messages of the transcript share an id. *)
Theorem ids_unique_when_clock_ticks (t0 : Z) (es : list Event) (w : World) :
  clockTicks 1 es = true ->
  run (initialWorld t0) es = Some w ->
  NoDup (map id (messages (st w))).
Proof.
  intros Hck Hrun.
  destruct (run_idsBelow es (initialWorld t0) w 1) as (hw & Hnd & _);
    try assumption.
  split.
  - simpl. constructor; [intros [] | constructor].
  - intros m [<-|[]]. exists 1. split; [reflexivity | lia].
Qed.

Lemma ids_unique_when_clock_ticks_witness :
  let env := mkSendEnv None SetupOk sampleTime sampleTime sampleTime sampleTime
                       (mkCatchClock (sampleTime + 1) (sampleTime + 1)) in
  exists w,
    run (initialWorld 0) [SetInput "hi"; Send env] = Some w /\
    NoDup (map id (messages (st w))).
Proof.
  intros env. eexists. split; [reflexivity|].
  apply (ids_unique_when_clock_ticks 0 [SetInput "hi"; Send env]);
    reflexivity.
Defined.

(** ** X17 *)

(** X17. No event other than [clearChat] changes the id, role, timestamp
    or image of a message already in the transcript, or its position: the
    list of these four fields only grows at its end.  Content and sources of
    an existing message change only through a chunk. *)
Theorem messages_keep_their_fixed_part (w : World) (e : Event) (w' : World) :
  step w e = Some w' ->
  (forall clk, e <> ClearChat clk) ->
  (exists added,
     map fixedPart (messages (st w'))
     = map fixedPart (messages (st w)) ++ map fixedPart added) /\
  ((forall c, e <> StreamChunk c) ->
   exists added, messages (st w') = messages (st w) ++ added).
Proof.
  intros H Hnc. pose proof (step_transcript _ _ _ H) as Ht.
  destruct e; try (destruct Ht as (added & ->); split;
                   [exists added; apply map_app | intros _; now exists added]).
  - now destruct (Hnc clk).
  - destruct Ht as (t & fr & srcs & ->). split.
    + exists []. rewrite app_nil_r. unfold updateById. rewrite map_map.
      apply map_ext. intros m. now destruct (String.eqb (id m) t).
    + intros Hc. now destruct (Hc c).
Qed.

Lemma messages_keep_their_fixed_part_witness :
  exists w' added,
    step streamingWorld (StreamChunk (mkChunk (Some "Hi") None)) = Some w' /\
    map fixedPart (messages (st w'))
    = map fixedPart (messages (st streamingWorld)) ++ map fixedPart added.
Proof.
  assert (exists w', step streamingWorld (StreamChunk (mkChunk (Some "Hi") None))
                     = Some w') as [w' E] by (eexists; reflexivity).
  destruct (messages_keep_their_fixed_part _ _ _ E
              ltac:(intros clk; discriminate)) as [[added H] _].
  exists w', added. split; assumption.
Defined.

(** ** X18 *)

(** X18. Nothing is filtered out of the history.  After a turn whose stream
    failed (placeholder id fresh, as in X7), the next accepted send that
    opens a session hands over the old history followed by the user turn,
    a "model" turn with the partial reply and a "model" turn with the error
    text. *)
Theorem error_text_enters_history
    (env : SendEnv) (w : World) (cs : list Chunk) (clk : CatchClock)
    (v : string) (env2 : SendEnv) :
  sendBlocked (st w) = false ->
  sessionOpens env = true ->
  ~ In (JS.toString (botIdNow env + 1)) (map id (messages (st w))) ->
  JS.toString (userIdNow env) <> JS.toString (botIdNow env + 1) ->
  JS.truthy (JS.trim v) = true ->
  sessionOpens env2 = true ->
  exists w' f,
    run w (Send env :: map StreamChunk cs
             ++ [StreamError clk; SetInput v; Send env2]) = Some w' /\
    task w' = Some f /\
    Frame.history f
    = serializeHistory (messages (st w))
      ++ [toContent (mkUserMessage env (st w));
          Api.mkContent "model" [Api.textPart (accumulate "" cs)];
          Api.mkContent "model" [Api.textPart errorText]].
Proof.
  intros Hb Hs Hfresh Hne Hv Hs2.
  rewrite app_comm_cons, run_app.
  rewrite (send_then_chunks env w cs Hb Hs Hfresh Hne).
  cbn [run step task st]. unfold finallyBlock, catchBlock.
  match goal with
  | |- context [handleSend env2 ?w1] =>
      assert (Hb2 : sendBlocked (st w1) = false)
        by (unfold sendBlocked; simpl; now rewrite Hv);
      rewrite (handleSend_suspends env2 w1 Hb2 Hs2)
  end.
  eexists _, _. split; [reflexivity|]. split; [reflexivity|].
  simpl. unfold serializeHistory. rewrite !map_app, <- app_assoc. reflexivity.
Qed.

Lemma error_text_enters_history_witness :
  let clk := mkCatchClock (sampleTime + 40) (sampleTime + 40) in
  exists w' f,
    run pictureWorld
        (Send (envAt (Some "key") sampleTime)
           :: map StreamChunk [mkChunk (Some "Hi") None]
           ++ [StreamError clk; SetInput "again";
               Send (envAt (Some "key") (sampleTime + 90))]) = Some w' /\
    task w' = Some f /\
    length (Frame.history f) = 4%nat.
Proof.
  intros clk.
  destruct (error_text_enters_history
              (envAt (Some "key") sampleTime) pictureWorld
              [mkChunk (Some "Hi") None] clk "again"
              (envAt (Some "key") (sampleTime + 90))
              eq_refl eq_refl
              ltac:(simpl; intros [H|[]]; discriminate H)
              ltac:(discriminate) eq_refl eq_refl)
    as (w' & f & Hrun & Ht & Hh).
  exists w', f. split; [exact Hrun|]. split; [exact Ht|].
  now rewrite Hh.
Defined.

(** ** X19 *)

(** X19. Editing the pending input or image and an event of the stream do
    not interfere: in either order they lead to the same state, so what the
    user types or attaches while a reply streams is kept, and the stream
    never touches it. *)
Theorem pending_edits_commute_with_stream (w : World) (a b : Event) :
  isPendingEdit a = true ->
  isStreamEvent b = true ->
  run w [a; b] = run w [b; a] /\
  (forall w', step w b = Some w' ->
     input (st w') = input (st w) /\
     selectedImage (st w') = selectedImage (st w)).
Proof.
  intros Ha Hb. destruct w as [s [f|]];
    destruct a; try discriminate; destruct b; try discriminate;
    (split; [reflexivity | simpl; intros w' [= <-]; split; reflexivity])
    || (split; [reflexivity | simpl; discriminate]).
Qed.

Lemma pending_edits_commute_with_stream_witness :
  run streamingWorld [SetInput "next"; StreamChunk (mkChunk (Some "Hi") None)]
  = run streamingWorld [StreamChunk (mkChunk (Some "Hi") None); SetInput "next"].
Proof.
  exact (proj1 (pending_edits_commute_with_stream streamingWorld
                  (SetInput "next") (StreamChunk (mkChunk (Some "Hi") None))
                  eq_refl eq_refl)).
Defined.
